(** * Alphograph: text-to-curve generator, camera and loop controller

    A shallow embedding of the three TypeScript sources of the repository:

    - [utils/circularSystem] (the 52-position rotary alphabet and the path
      generator) as [Module CircularSystem];
    - [components/CurveCanvas] (view rectangle, wheel and button zoom,
      panning, layer dragging) as [Module CurveCanvas];
    - [App] (layers, loop controller and its interval callback) as
      [Module App].

    Numbers.  A JavaScript number is modelled as a real ([R]) where the code
    computes coordinates and as an integer ([Z]) where the code only ever
    holds integers (character codes, string lengths, the loop cursor, the
    cumulative heading, which is a sum of integer degrees).  Real arithmetic
    is the exact counterpart of the binary64 operations of the code;
    non-finite numbers (a division by zero, an overflow) are outside the
    model.

    Strings.  A JavaScript string is the list of its UTF-16 code units. *)

From Stdlib Require Import ZArith QArith Qround Qabs List Bool String Lia Lra.
From Stdlib Require Import Reals.
From Stdlib Require Import DecimalString.
Import ListNotations.

(* ================================================================== *)
(** * JavaScript strings *)
(* ================================================================== *)

Module JS.

Local Open Scope Z_scope.

(** A string is its sequence of UTF-16 code units, each in [0, 65535]. *)
Definition jsstring := list Z.

(** [s.length] counts code units. *)
Definition length (s : jsstring) : Z := Z.of_nat (List.length s).

(** Embedding of a Rocq string of ASCII characters, for readable examples. *)
Fixpoint of_string (s : string) : jsstring :=
  match s with
  | EmptyString => []
  | String a rest => Z.of_nat (Ascii.nat_of_ascii a) :: of_string rest
  end.

Definition is_high_surrogate (u : Z) : bool := (55296 <=? u) && (u <=? 56319).
Definition is_low_surrogate (u : Z) : bool := (56320 <=? u) && (u <=? 57343).

(** The string iterator behind [for (const char of text)]: one string per
    code point, a well-formed surrogate pair staying together and a lone
    surrogate coming out alone. *)
Fixpoint iterate (s : jsstring) : list jsstring :=
  match s with
  | [] => []
  | u :: rest =>
      match rest with
      | v :: rest' =>
          if is_high_surrogate u && is_low_surrogate v
          then [u; v] :: iterate rest'
          else [u] :: iterate rest
      | [] => [[u]]
      end
  end.

(** [s.charCodeAt(0)]; [None] stands for the [NaN] of the empty string. *)
Definition charCodeAt0 (s : jsstring) : option Z := hd_error s.

(** [s[i]]: the one-unit string at index [i]; [None] stands for [undefined]. *)
Definition index (s : jsstring) (i : Z) : option jsstring :=
  if i <? 0 then None
  else match nth_error s (Z.to_nat i) with
       | Some u => Some [u]
       | None => None
       end.

(** What [text + undefined] appends. *)
Definition undefined_text : jsstring := of_string "undefined".

(** Upper-casing of one code unit of the Basic Multilingual Plane, after
    the Unicode tables that [String.prototype.toUpperCase] follows
    (UnicodeData simple mappings and the unconditional SpecialCasing
    entries).  The table is written out for Basic Latin, for Latin-1 and for
    every other character whose upper case begins with a Basic Latin
    capital; the remaining characters are left as they are, which agrees
    with the standard on whether the result begins with a unit in
    [65, 90]. *)
Definition upper_unit (u : Z) : jsstring :=
  if (97 <=? u) && (u <=? 122) then [u - 32]            (* a-z *)
  else if u =? 181 then [924]                           (* micro sign *)
  else if u =? 223 then [83; 83]                        (* sharp s: SS *)
  else if (224 <=? u) && (u <=? 254) && negb (u =? 247) then [u - 32]
  else if u =? 255 then [376]                           (* y diaeresis *)
  else if u =? 305 then [73]                            (* dotless i: I *)
  else if u =? 383 then [83]                            (* long s: S *)
  else if u =? 496 then [74; 780]                       (* j caron *)
  else if u =? 7830 then [72; 817]                      (* h line below *)
  else if u =? 7831 then [84; 776]                      (* t diaeresis *)
  else if u =? 7832 then [87; 778]                      (* w ring above *)
  else if u =? 7833 then [89; 778]                      (* y ring above *)
  else if u =? 7834 then [65; 702]                      (* a right half ring *)
  else if u =? 64256 then [70; 70]                      (* ligature ff *)
  else if u =? 64257 then [70; 73]                      (* ligature fi *)
  else if u =? 64258 then [70; 76]                      (* ligature fl *)
  else if u =? 64259 then [70; 70; 73]                  (* ligature ffi *)
  else if u =? 64260 then [70; 70; 76]                  (* ligature ffl *)
  else if u =? 64261 then [83; 84]                      (* ligature long s t *)
  else if u =? 64262 then [83; 84]                      (* ligature st *)
  else [u].

(** Upper-casing of one code point as the iterator delivers it; a code
    point above the Basic Multilingual Plane keeps its leading surrogate. *)
Definition upper_point (c : jsstring) : jsstring :=
  match c with
  | [u] => upper_unit u
  | _ => c
  end.

(** [s.toUpperCase()]: code point by code point. *)
Definition toUpperCase (s : jsstring) : jsstring :=
  flat_map upper_point (iterate s).

(** [Math.round] on an exact rational: the nearest integer, halves going
    up. *)
Definition Math_round (q : Q) : Z := Qfloor (q + (1 # 2))%Q.

End JS.

(* ================================================================== *)
(** * types *)
(* ================================================================== *)

Module Types.

Module Point.
Record t : Type := mk
  { x : R; y : R; char : JS.jsstring; angle : Z; isSpace : bool }.
End Point.

Module Layer.
Record t : Type := mk
  { id : string; name : string; text : JS.jsstring; color : string;
    x : R; y : R; locked : bool; visible : bool; segmentLength : R }.
End Layer.

End Types.

(* ================================================================== *)
(** * utils/circularSystem *)
(* ================================================================== *)

Module CircularSystem.

Import JS Types.
Local Open Scope Z_scope.

Definition DEFAULT_SEGMENT_LENGTH : R := 10%R.

(** [getDegreeForChar]; [None] is the source's [null].  The quotient
    [(degreeIndex * 360) / 52] is taken exactly: its distance to every
    half-integer is at least 1/26, far above the rounding error of the
    binary64 division, so [Math.round] sees the same integer. *)
Definition getDegreeForChar (char : jsstring) : option Z :=
  match charCodeAt0 (toUpperCase char) with
  | None => None
  | Some code =>
      if (65 <=? code) && (code <=? 90) then
        let letterIndex := code - 65 in
        let degreeIndex := letterIndex * 2 in
        Some (Math_round (inject_Z (degreeIndex * 360) / inject_Z 52)%Q)
      else None
  end.

(** [calculateNextPoint]; the heading arrives in whole degrees. *)
Definition calculateNextPoint (x y : R) (degree : Z) (length : R) : R * R :=
  let radians := (IZR degree * PI / 180)%R in
  ((x + length * cos radians)%R, (y - length * sin radians)%R).

(** One drawing command of the path descriptor: the text [" M x y"] or
    [" L x y"] that the source appends to [pathD]. *)
Inductive Command : Type :=
| M (x y : R)
| L (x y : R).

Record Bounds : Type := mkBounds
  { minX : R; maxX : R; minY : R; maxY : R; width : R; height : R }.

Record PathData : Type := mkPathData
  { pathData : list Command;
    points : list Point.t;
    endPoint : R * R;
    bounds : Bounds }.

(** The local variables of [generatePathData]. *)
Record Turtle : Type := mkTurtle
  { currentX : R; currentY : R; currentAngle : Z;
    calculatedPoints : list Point.t;
    pathD : list Command;
    min_x : R; max_x : R; min_y : R; max_y : R }.

(** The state before the loop: the start point is pushed, the descriptor
    opens with a move to the origin and the four extrema are zero. *)
Definition start : Turtle :=
  {| currentX := 0; currentY := 0; currentAngle := 0;
     calculatedPoints := [Point.mk 0 0 [] 0 false];
     pathD := [M 0 0];
     min_x := 0; max_x := 0; min_y := 0; max_y := 0 |}.

(** What the loop body does once the heading is settled. *)
Definition emit (segmentLength : R) (t : Turtle) (char : jsstring)
    (isSpace : bool) (angle : Z) : Turtle :=
  let next := calculateNextPoint (currentX t) (currentY t) angle segmentLength in
  let d := if isSpace then pathD t ++ [M (fst next) (snd next)]
           else pathD t ++ [L (fst next) (snd next)] in
  {| currentX := fst next; currentY := snd next; currentAngle := angle;
     calculatedPoints :=
       calculatedPoints t ++ [Point.mk (fst next) (snd next) char angle isSpace];
     pathD := d;
     min_x := Rmin (min_x t) (fst next); max_x := Rmax (max_x t) (fst next);
     min_y := Rmin (min_y t) (snd next); max_y := Rmax (max_y t) (snd next) |}.

Definition is_space (char : jsstring) : bool :=
  match char with
  | [u] => u =? 32
  | _ => false
  end.

(** The body of [for (const char of text)]. *)
Definition body (segmentLength : R) (t : Turtle) (char : jsstring) : Turtle :=
  let isSpace := is_space char in
  if negb isSpace then
    match getDegreeForChar char with
    | Some degree => emit segmentLength t char isSpace (currentAngle t + degree)
    | None => t                                  (* continue *)
    end
  else emit segmentLength t char isSpace (currentAngle t).

(** The loop of [generatePathData], as a left fold over the code points. *)
Definition run (text : jsstring) (segmentLength : R) : Turtle :=
  fold_left (body segmentLength) (iterate text) start.

Definition generatePathData (text : jsstring) (segmentLength : R) : PathData :=
  let t := run text segmentLength in
  {| pathData := pathD t;
     points := calculatedPoints t;
     endPoint := (currentX t, currentY t);
     bounds := {| minX := min_x t; maxX := max_x t;
                  minY := min_y t; maxY := max_y t;
                  width := (max_x t - min_x t)%R;
                  height := (max_y t - min_y t)%R |} |}.

End CircularSystem.

(* ================================================================== *)
(** * components/CurveCanvas *)
(* ================================================================== *)

Module CurveCanvas.

Local Open Scope R_scope.

(** The [viewBox] state.  The source keeps it as the text ["vx vy vw vh"]
    and reads it back with [split(' ').map(Number)]; printing a number and
    parsing it again gives the same number, so the text is modelled by the
    four numbers it carries. *)
Record ViewBox : Type := mkViewBox { vx : R; vy : R; vw : R; vh : R }.

Module PanState.
Record t : Type := mk { startX : R; startY : R; startViewBox : ViewBox }.
End PanState.

Module DragState.
Record t : Type := mk { id : string; startX : R; startY : R }.
End DragState.

(** The fields of a mouse or wheel event that the handlers read. *)
Record MouseEvent : Type := mkMouseEvent
  { button : Z; altKey : bool; clientX : R; clientY : R }.

(** What the handlers ask of the rendered [svg] element: the size of
    [getBoundingClientRect()] and the [a] and [d] entries of
    [getScreenCTM()], when there is one. *)
Record Svg : Type := mkSvg
  { rect_width : R; rect_height : R; screenCTM : option (R * R) }.

(** The component's state. *)
Record CanvasState : Type := mkCanvasState
  { dragState : option DragState.t;
    panState : option PanState.t;
    viewBox : ViewBox;
    isAutoFit : bool }.

Definition setViewBox (v : ViewBox) (s : CanvasState) : CanvasState :=
  {| dragState := dragState s; panState := panState s;
     viewBox := v; isAutoFit := isAutoFit s |}.

Definition setIsAutoFit (b : bool) (s : CanvasState) : CanvasState :=
  {| dragState := dragState s; panState := panState s;
     viewBox := viewBox s; isAutoFit := b |}.

Definition setPanState (p : option PanState.t) (s : CanvasState) : CanvasState :=
  {| dragState := dragState s; panState := p;
     viewBox := viewBox s; isAutoFit := isAutoFit s |}.

Definition setDragState (d : option DragState.t) (s : CanvasState) : CanvasState :=
  {| dragState := d; panState := panState s;
     viewBox := viewBox s; isAutoFit := isAutoFit s |}.

(** The initial state: [viewBox] is ["-50 -50 100 100"], auto-fit is on. *)
Definition canvas_initial : CanvasState :=
  {| dragState := None; panState := None;
     viewBox := mkViewBox (-50) (-50) 100 100; isAutoFit := true |}.

(** [handleWheel]. *)
Definition handleWheel (deltaY : R) (s : CanvasState) : CanvasState :=
  let s := setIsAutoFit false s in
  let v := viewBox s in
  let zoomFactor := if Rlt_dec 0 deltaY then 11 / 10 else 9 / 10 in
  let newW := vw v * zoomFactor in
  let newH := vh v * zoomFactor in
  let dx := (vw v - newW) / 2 in
  let dy := (vh v - newH) / 2 in
  setViewBox (mkViewBox (vx v + dx) (vy v + dy) newW newH) s.

(** The [onClick] of the "Zoom In" button. *)
Definition zoomInClick (s : CanvasState) : CanvasState :=
  let s := setIsAutoFit false s in
  let v := viewBox s in
  setViewBox (mkViewBox (vx v + vw v * (1 / 10)) (vy v + vh v * (1 / 10))
                        (vw v * (8 / 10)) (vh v * (8 / 10))) s.

(** The [onClick] of the "Zoom Out" button. *)
Definition zoomOutClick (s : CanvasState) : CanvasState :=
  let s := setIsAutoFit false s in
  let v := viewBox s in
  setViewBox (mkViewBox (vx v - vw v * (1 / 10)) (vy v - vh v * (1 / 10))
                        (vw v * (12 / 10)) (vh v * (12 / 10))) s.

(** [handleMouseDown] on the canvas background. *)
Definition handleMouseDown (e : MouseEvent) (s : CanvasState) : CanvasState :=
  if ((button e =? 1) || (button e =? 2) || ((button e =? 0) && altKey e))%Z%bool
  then
    let s := setIsAutoFit false s in
    setPanState (Some (PanState.mk (clientX e) (clientY e) (viewBox s))) s
  else s.

(** [handleGlobalMouseMove]: the new state and, while a layer is dragged,
    the arguments of the [onLayerMove] call. *)
Definition handleGlobalMouseMove (e : MouseEvent) (svg : option Svg) (s : CanvasState)
  : CanvasState * option (string * R * R) :=
  match panState s with
  | Some p =>
      let dxPx := clientX e - PanState.startX p in
      let dyPx := clientY e - PanState.startY p in
      match svg with
      | None => (s, None)
      | Some g =>
          let v := PanState.startViewBox p in
          let scaleX := vw v / rect_width g in
          let scaleY := vh v / rect_height g in
          let newVx := vx v - dxPx * scaleX in
          let newVy := vy v - dyPx * scaleY in
          (setViewBox (mkViewBox newVx newVy (vw v) (vh v)) s, None)
      end
  | None =>
      match dragState s with
      | Some d =>
          let dx := clientX e - DragState.startX d in
          let dy := clientY e - DragState.startY d in
          let move :=
            match svg with
            | Some g =>
                match screenCTM g with
                | Some (a, dd) => Some (DragState.id d, dx / a, dy / dd)
                | None => None
                end
            | None => None
            end in
          (setDragState
             (Some (DragState.mk (DragState.id d) (clientX e) (clientY e))) s,
           move)
      | None => (s, None)
      end
  end.

(** [handleGlobalMouseUp]. *)
Definition handleGlobalMouseUp (s : CanvasState) : CanvasState :=
  setDragState None (setPanState None s).

(** [onLayerMouseDown]. *)
Definition onLayerMouseDown (e : MouseEvent) (layerId : string)
    (layerLocked : bool) (s : CanvasState) : CanvasState :=
  if layerLocked then s
  else if negb (button e =? 0)%Z then s
  else setDragState (Some (DragState.mk layerId (clientX e) (clientY e))) s.

(** One entry of [preparedLayers]: the layer with the path descriptor and
    the bounds generated for it. *)
Record Prepared : Type := mkPrepared
  { layer : Types.Layer.t;
    preparedPathData : list CircularSystem.Command;
    preparedBounds : CircularSystem.Bounds }.

(** [preparedLayers]: [None] is the [null] of a hidden layer. *)
Definition preparedLayers (layers : list Types.Layer.t) : list (option Prepared) :=
  map (fun l =>
         if negb (Types.Layer.visible l) then None
         else
           let g := CircularSystem.generatePathData
                      (Types.Layer.text l) (Types.Layer.segmentLength l) in
           Some (mkPrepared l (CircularSystem.pathData g) (CircularSystem.bounds g)))
      layers.

(** The accumulators of [contentBounds].  The source starts them at
    [Infinity] and [-Infinity] and lowers [hasVisible]; the first layer
    folded in replaces all four, [Math.min(Infinity, a)] and
    [Math.max(-Infinity, a)] being [a], and raises [hasVisible].  So [None]
    stands for the four infinite values with [hasVisible] false, and
    [Some (minX, maxX, minY, maxY)] for four numbers with [hasVisible]
    true. *)
Definition Extent : Type := option (R * R * R * R).

Definition accumulate (acc : Extent) (entry : option Prepared) : Extent :=
  match entry with
  | None => acc                                   (* if (!layer) return *)
  | Some q =>
      let lx := Types.Layer.x (layer q) in
      let ly := Types.Layer.y (layer q) in
      let b := preparedBounds q in
      match acc with
      | None =>
          Some (CircularSystem.minX b + lx, CircularSystem.maxX b + lx,
                CircularSystem.minY b + ly, CircularSystem.maxY b + ly)
      | Some (minX, maxX, minY, maxY) =>
          Some (Rmin minX (CircularSystem.minX b + lx),
                Rmax maxX (CircularSystem.maxX b + lx),
                Rmin minY (CircularSystem.minY b + ly),
                Rmax maxY (CircularSystem.maxY b + ly))
      end
  end.

(** [contentBounds]. *)
Definition contentBounds (prepared : list (option Prepared))
  : CircularSystem.Bounds :=
  match fold_left accumulate prepared None with
  | None => CircularSystem.mkBounds (-50) 50 (-50) 50 100 100
  | Some (minX, maxX, minY, maxY) =>
      CircularSystem.mkBounds minX maxX minY maxY (maxX - minX) (maxY - minY)
  end.

(** The auto-fit effect, run on [contentBounds] and [isAutoFit]. *)
Definition autoFitEffect (cb : CircularSystem.Bounds) (s : CanvasState)
  : CanvasState :=
  if negb (isAutoFit s) then s
  else
    let paddingX := Rmax 100 (CircularSystem.width cb * (15 / 100)) in
    let paddingY := Rmax 100 (CircularSystem.height cb * (15 / 100)) in
    let x := CircularSystem.minX cb - paddingX in
    let y := CircularSystem.minY cb - paddingY in
    let w := CircularSystem.width cb + paddingX * 2 in
    let h := CircularSystem.height cb + paddingY * 2 in
    setViewBox (mkViewBox x y (Rmax w 100) (Rmax h 100)) s.

(** The [onClick] of the "Auto-Fit View" button. *)
Definition autoFitClick (s : CanvasState) : CanvasState := setIsAutoFit true s.

(** The view rectangle the component shows for the layers it is given:
    the auto-fit effect on their content bounds. *)
Definition framed (layers : list Types.Layer.t) (s : CanvasState) : CanvasState :=
  autoFitEffect (contentBounds (preparedLayers layers)) s.

(** A pointer-down over the geometry of a layer.  [onLayerMouseDown] runs
    first; it stops the propagation only when it starts a drag, so that in
    its two early returns the event goes on to [handleMouseDown] of the
    container. *)
Definition layerMouseDown (e : MouseEvent) (layerId : string)
    (layerLocked : bool) (s : CanvasState) : CanvasState :=
  if layerLocked then handleMouseDown e s
  else if negb (button e =? 0)%Z then handleMouseDown e s
  else onLayerMouseDown e layerId layerLocked s.

End CurveCanvas.

(* ================================================================== *)
(** * App *)
(* ================================================================== *)

Module App.

Import JS Types CircularSystem.
Local Open Scope Z_scope.

(** The interval timers of [window]: the handles still scheduled and the
    next handle [setInterval] hands out (handles are positive). *)
Record Window : Type := mkWindow { scheduled : list Z; nextHandle : Z }.

Definition setInterval (w : Window) : Z * Window :=
  (nextHandle w,
   {| scheduled := nextHandle w :: scheduled w; nextHandle := nextHandle w + 1 |}).

Definition clearInterval (h : Z) (w : Window) : Window :=
  {| scheduled := filter (fun k => negb (k =? h)) (scheduled w);
     nextHandle := nextHandle w |}.

(** The state of the component: the [useState] cells the loop reads and
    writes, the three refs and the timers of the window. *)
Record AppState : Type := mkAppState
  { layers : list Layer.t;
    activeLayerId : string;
    isLooping : bool;
    loopIntervalRef : option Z;
    loopSeedRef : jsstring;
    loopIndexRef : Z;
    window : Window }.

Definition app_initial : AppState :=
  {| layers := [Layer.mk "1" "Base Layer" (of_string "Hello World") "#1e293b"
                  0 0 false true DEFAULT_SEGMENT_LENGTH];
     activeLayerId := "1";
     isLooping := false;
     loopIntervalRef := None;
     loopSeedRef := [];
     loopIndexRef := 0;
     window := mkWindow [] 1 |}.

Definition setLayers (ls : list Layer.t) (s : AppState) : AppState :=
  {| layers := ls; activeLayerId := activeLayerId s; isLooping := isLooping s;
     loopIntervalRef := loopIntervalRef s; loopSeedRef := loopSeedRef s;
     loopIndexRef := loopIndexRef s; window := window s |}.

Definition setIsLooping (b : bool) (s : AppState) : AppState :=
  {| layers := layers s; activeLayerId := activeLayerId s; isLooping := b;
     loopIntervalRef := loopIntervalRef s; loopSeedRef := loopSeedRef s;
     loopIndexRef := loopIndexRef s; window := window s |}.

Definition setLoopIntervalRef (r : option Z) (s : AppState) : AppState :=
  {| layers := layers s; activeLayerId := activeLayerId s;
     isLooping := isLooping s;
     loopIntervalRef := r; loopSeedRef := loopSeedRef s;
     loopIndexRef := loopIndexRef s; window := window s |}.

Definition setLoopSeedRef (seed : jsstring) (s : AppState) : AppState :=
  {| layers := layers s; activeLayerId := activeLayerId s;
     isLooping := isLooping s;
     loopIntervalRef := loopIntervalRef s; loopSeedRef := seed;
     loopIndexRef := loopIndexRef s; window := window s |}.

Definition setLoopIndexRef (i : Z) (s : AppState) : AppState :=
  {| layers := layers s; activeLayerId := activeLayerId s;
     isLooping := isLooping s;
     loopIntervalRef := loopIntervalRef s; loopSeedRef := loopSeedRef s;
     loopIndexRef := i; window := window s |}.

Definition setWindow (w : Window) (s : AppState) : AppState :=
  {| layers := layers s; activeLayerId := activeLayerId s;
     isLooping := isLooping s;
     loopIntervalRef := loopIntervalRef s; loopSeedRef := loopSeedRef s;
     loopIndexRef := loopIndexRef s; window := w |}.

(** [layers.find(l => l.id === id)]. *)
Definition findLayer (id : string) (ls : list Layer.t) : option Layer.t :=
  find (fun l => String.eqb (Layer.id l) id) ls.

(** [activeLayer]: the layer found, or else the first one. *)
Definition activeLayer (s : AppState) : option Layer.t :=
  match findLayer (activeLayerId s) (layers s) with
  | Some l => Some l
  | None => hd_error (layers s)
  end.

(** Truthiness of the handle kept in [loopIntervalRef]: neither [null] nor
    zero. *)
Definition liveHandle (r : option Z) : option Z :=
  match r with
  | Some h => if h =? 0 then None else Some h
  | None => None
  end.

(** [startLoop]. *)
Definition startLoop (s : AppState) : AppState :=
  match activeLayer s with
  | None => s
  | Some a =>
      if isLooping s then s
      else setIsLooping true
             (setLoopIndexRef 0 (setLoopSeedRef (Layer.text a) s))
  end.

(** [stopLoop]. *)
Definition stopLoop (s : AppState) : AppState :=
  let s := setIsLooping false s in
  match liveHandle (loopIntervalRef s) with
  | Some h => setLoopIntervalRef None (setWindow (clearInterval h (window s)) s)
  | None => s
  end.

(** The [map] that rewrites the active layer in the two [return]s of the
    updater. *)
Definition withText (id : string) (newText : jsstring) (ls : list Layer.t)
  : list Layer.t :=
  map (fun l =>
         if String.eqb (Layer.id l) id
         then Layer.mk (Layer.id l) (Layer.name l) newText (Layer.color l)
                (Layer.x l) (Layer.y l) (Layer.locked l) (Layer.visible l)
                (Layer.segmentLength l)
         else l) ls.

Definition withTextAt (id : string) (newText : jsstring) (x y : R)
    (ls : list Layer.t) : list Layer.t :=
  map (fun l =>
         if String.eqb (Layer.id l) id
         then Layer.mk (Layer.id l) (Layer.name l) newText (Layer.color l)
                x y (Layer.locked l) (Layer.visible l) (Layer.segmentLength l)
         else l) ls.

(** [Math.sqrt(endPoint.x ** 2 + endPoint.y ** 2)]. *)
Definition dist (endPoint : R * R) : R :=
  sqrt (fst endPoint ^ 2 + snd endPoint ^ 2).

Definition Rltb (a b : R) : bool := if Rlt_dec a b then true else false.

(** The callback of [setInterval], with the functional update of [layers]
    that it requests run in place. *)
Definition tick (s : AppState) : AppState :=
  let seed := loopSeedRef s in
  match seed with
  | [] => s                                       (* if (!seed) return *)
  | _ :: _ =>
      let charToAdd :=
        match index seed (Z.rem (loopIndexRef s) (length seed)) with
        | Some c => c
        | None => undefined_text
        end in
      let s := setLoopIndexRef (loopIndexRef s + 1) s in
      match findLayer (activeLayerId s) (layers s) with
      | None => s
      | Some currentLayer =>
          let newText := Layer.text currentLayer ++ charToAdd in
          let endPoint :=
            endPoint (generatePathData newText (Layer.segmentLength currentLayer)) in
          let dist := dist endPoint in
          let minLen := Z.max (length seed * 4) 40 in
          if (minLen <? length newText) && Rltb dist (1 / 2) then
            let s' := stopLoop s in
            let bounds :=
              bounds (generatePathData newText (Layer.segmentLength currentLayer)) in
            let cx := (minX bounds + width bounds / 2)%R in
            let cy := (minY bounds + height bounds / 2)%R in
            setLayers (withTextAt (activeLayerId s) newText (- cx) (- cy) (layers s)) s'
          else
            let s' := if 8000 <? length newText then stopLoop s else s in
            setLayers (withText (activeLayerId s) newText (layers s)) s'
      end
  end.

(** The effect on [isLooping] and [activeLayerId]: it schedules the
    callback while looping and clears the handle otherwise. *)
Definition loopEffect (s : AppState) : AppState :=
  match isLooping s, activeLayer s with
  | true, Some _ =>
      let (h, w) := setInterval (window s) in
      setLoopIntervalRef (Some h) (setWindow w s)
  | _, _ =>
      match liveHandle (loopIntervalRef s) with
      | Some h => setWindow (clearInterval h (window s)) s
      | None => s
      end
  end.

(** The cleanup that the effect returns. *)
Definition loopCleanup (s : AppState) : AppState :=
  match liveHandle (loopIntervalRef s) with
  | Some h => setWindow (clearInterval h (window s)) s
  | None => s
  end.

(** A click on "Play Loop".  The button is rendered while [isLooping] is
    false and an active layer exists, and it is disabled while that layer's
    text is empty: a disabled button delivers no click. *)
Definition playLoopClick (s : AppState) : AppState :=
  match activeLayer s with
  | None => s
  | Some a =>
      if isLooping s then s
      else match Layer.text a with
           | [] => s                               (* disabled *)
           | _ :: _ => loopEffect (startLoop s)
           end
  end.

(** [n] firings of the interval callback. *)
Fixpoint ticks (n : nat) (s : AppState) : AppState :=
  match n with
  | O => s
  | S k => ticks k (tick s)
  end.

(** ** Layer editing *)

Definition COLORS : list string :=
  ["#1e293b"; "#ef4444"; "#f97316"; "#eab308"; "#22c55e";
   "#06b6d4"; "#3b82f6"; "#a855f7"; "#ec4899"; "#64748b"]%string.

(** [Partial<Layer>]: each field present or not. *)
Module Partial.
Record t : Type := mk
  { id : option string; name : option string; text : option jsstring;
    color : option string; x : option R; y : option R;
    locked : option bool; visible : option bool; segmentLength : option R }.

Definition empty : t := mk None None None None None None None None None.
End Partial.

Definition orElse {A : Type} (o : option A) (d : A) : A :=
  match o with Some a => a | None => d end.

(** The spread [{ ...l, ...updates }]. *)
Definition spread (l : Layer.t) (updates : Partial.t) : Layer.t :=
  Layer.mk (orElse (Partial.id updates) (Layer.id l))
           (orElse (Partial.name updates) (Layer.name l))
           (orElse (Partial.text updates) (Layer.text l))
           (orElse (Partial.color updates) (Layer.color l))
           (orElse (Partial.x updates) (Layer.x l))
           (orElse (Partial.y updates) (Layer.y l))
           (orElse (Partial.locked updates) (Layer.locked l))
           (orElse (Partial.visible updates) (Layer.visible l))
           (orElse (Partial.segmentLength updates) (Layer.segmentLength l)).

Definition setActiveLayerId (id : string) (s : AppState) : AppState :=
  {| layers := layers s; activeLayerId := id; isLooping := isLooping s;
     loopIntervalRef := loopIntervalRef s; loopSeedRef := loopSeedRef s;
     loopIndexRef := loopIndexRef s; window := window s |}.

(** [handleUpdateLayer]. *)
Definition handleUpdateLayer (id : string) (updates : Partial.t) (s : AppState)
  : AppState :=
  setLayers (map (fun l => if String.eqb (Layer.id l) id then spread l updates else l)
                 (layers s)) s.

(** The decimal text of a count, as a template literal prints it. *)
Definition decimal (n : nat) : string := NilZero.string_of_uint (Nat.to_uint n).

(** [handleAddLayer]; [newId] is what [crypto.randomUUID()] returned.
    [COLORS[i]] is [undefined] outside the palette, which the empty text
    stands for. *)
Definition handleAddLayer (newId : string) (s : AppState) : AppState :=
  let n := List.length (layers s) in
  let newLayer :=
    Layer.mk newId ("Layer " ++ decimal (n + 1)) []
             (nth (n mod List.length COLORS) COLORS ""%string)
             0 0 false true DEFAULT_SEGMENT_LENGTH in
  setActiveLayerId newId (setLayers (layers s ++ [newLayer]) s).

(** How an event handler ends: it returns, or it throws with the state
    updates requested so far in place. *)
Inductive Outcome : Type :=
| Returned (s : AppState)
| Thrown (s : AppState).

(** [handleDeleteLayer].  Reading [newLayers[0].id] on an empty list is a
    [TypeError]. *)
Definition handleDeleteLayer (id : string) (s : AppState) : Outcome :=
  if Nat.eqb (List.length (layers s)) 1 then Returned s
  else
    let newLayers :=
      filter (fun l => negb (String.eqb (Layer.id l) id)) (layers s) in
    let s' := setLayers newLayers s in
    if String.eqb (activeLayerId s) id then
      match newLayers with
      | first :: _ => Returned (setActiveLayerId (Layer.id first) s')
      | [] => Thrown s'
      end
    else Returned s'.

(** [handleLayerMove]. *)
Definition handleLayerMove (id : string) (dx dy : R) (s : AppState) : AppState :=
  setLayers (map (fun l =>
                    if negb (String.eqb (Layer.id l) id) then l
                    else Layer.mk (Layer.id l) (Layer.name l) (Layer.text l)
                           (Layer.color l) (Layer.x l + dx) (Layer.y l + dy)
                           (Layer.locked l) (Layer.visible l)
                           (Layer.segmentLength l))
                 (layers s)) s.

(** [handleCenterLayer]. *)
Definition handleCenterLayer (id : string) (s : AppState) : AppState :=
  match findLayer id (layers s) with
  | None => s
  | Some layer =>
      let bounds :=
        bounds (generatePathData (Layer.text layer) (Layer.segmentLength layer)) in
      let centerX := (minX bounds + width bounds / 2)%R in
      let centerY := (minY bounds + height bounds / 2)%R in
      handleUpdateLayer id
        (Partial.mk None None None None (Some (- centerX)%R) (Some (- centerY)%R)
           None None None) s
  end.

(** The host of the canvas: [App] renders [CurveCanvas] with its layers and
    with [handleLayerMove] as [onLayerMove]. *)
Record Host : Type := mkHost { canvas : CurveCanvas.CanvasState; app : AppState }.

(** A pointer-move seen by the window while the host is shown.  When the
    canvas asks for a layer move, [handleLayerMove] gives the canvas a new
    list of layers; [preparedLayers] and [contentBounds] are computed anew
    and the auto-fit effect runs on them.  When it does not, the layers are
    the same list and the effect does not run. *)
Definition mouseMove (e : CurveCanvas.MouseEvent) (svg : option CurveCanvas.Svg)
    (h : Host) : Host :=
  match CurveCanvas.handleGlobalMouseMove e svg (canvas h) with
  | (c, Some (id, dx, dy)) =>
      let a := handleLayerMove id dx dy (app h) in
      mkHost (CurveCanvas.framed (layers a) c) a
  | (c, None) => mkHost c (app h)
  end.

(** A run of pointer-moves, the canvas rendered the same way throughout. *)
Definition mouseMoves (es : list CurveCanvas.MouseEvent)
    (svg : option CurveCanvas.Svg) (h : Host) : Host :=
  fold_left (fun h e => mouseMove e svg h) es h.

End App.

(* ================================================================== *)
(** * The notions of the specification *)
(* ================================================================== *)

Module Spec.

Import JS Types CircularSystem.
Local Open Scope Z_scope.

(** The angle the specification gives to the letter of index [i]:
    round(2 i 360 / 52). *)
Definition angle (i : Z) : Z := Math_round ((2 * i * 360) # 52)%Q.

(** [d] is the integer nearest to [q]. *)
Definition nearest (d : Z) (q : Q) : Prop :=
  (Qabs (inject_Z d - q) < 1 # 2)%Q.

(** A valid character in the specification's sense: a space or one of the
    letters A-Z, a-z. *)
Definition valid_char (char : jsstring) : bool :=
  match char with
  | [u] => (u =? 32) || ((65 <=? u) && (u <=? 90)) || ((97 <=? u) && (u <=? 122))
  | _ => false
  end.

Definition count_valid (text : jsstring) : nat :=
  List.length (filter valid_char (iterate text)).

(** A character for which the loop body of [generatePathData] pushes a
    point. *)
Definition emits (char : jsstring) : bool :=
  is_space char ||
  match getDegreeForChar char with Some _ => true | None => false end.

(** Minimum and maximum of a coordinate over a non-empty run of points. *)
Definition least (f : Point.t -> R) (p : Point.t) (ps : list Point.t) : R :=
  fold_left Rmin (map f ps) (f p).

Definition greatest (f : Point.t -> R) (p : Point.t) (ps : list Point.t) : R :=
  fold_left Rmax (map f ps) (f p).

(** The box around a list of points; the zero-size box at the origin when
    there is none. *)
Definition box (pts : list Point.t) : Bounds :=
  match pts with
  | [] => mkBounds 0 0 0 0 0 0
  | p :: ps =>
      let x0 := least Point.x p ps in
      let x1 := greatest Point.x p ps in
      let y0 := least Point.y p ps in
      let y1 := greatest Point.y p ps in
      mkBounds x0 x1 y0 y1 (x1 - x0) (y1 - y0)
  end.

(** The points a path emitted: all but the synthetic start point. *)
Definition emitted (g : PathData) : list Point.t := tl (points g).

(** The indices 0 to 25, for proofs by cases over the alphabet. *)
Definition indices : list Z := map Z.of_nat (seq 0 26).

(** The four extrema of the loop enclose the origin. *)
Definition around_origin (t : Turtle) : Prop :=
  (min_x t <= 0 <= max_x t /\ min_y t <= 0 <= max_y t)%R.

(** The extrema of the loop are those of all the points pushed so far, the
    start point among them. *)
Definition boxed (t : Turtle) : Prop :=
  exists p ps,
    calculatedPoints t = p :: ps /\
    min_x t = least Point.x p ps /\ max_x t = greatest Point.x p ps /\
    min_y t = least Point.y p ps /\ max_y t = greatest Point.y p ps.

(** A text whose code units are all Basic Latin. *)
Definition basic_latin (text : jsstring) : Prop :=
  Forall (fun u => 0 <= u <= 127) text.

(** ** Further notions on paths *)

(** The command that the path descriptor holds for a point: a move for the
    start point and for a space, a line for a letter. *)
Definition command_of (p : Point.t) : Command :=
  match Point.char p with
  | [] => M (Point.x p) (Point.y p)
  | _ :: _ =>
      if Point.isSpace p then M (Point.x p) (Point.y p)
      else L (Point.x p) (Point.y p)
  end.

(** The point lies in the box. *)
Definition inside (b : Bounds) (p : Point.t) : Prop :=
  (minX b <= Point.x p <= maxX b /\ minY b <= Point.y p <= maxY b)%R.

(** The pairs of neighbouring points along a path. *)
Fixpoint segments (pts : list Point.t) : list (Point.t * Point.t) :=
  match pts with
  | [] => []
  | p :: rest =>
      match rest with
      | [] => []
      | q :: _ => (p, q) :: segments rest
      end
  end.

(** The square of the distance between two points. *)
Definition sq_dist (p q : Point.t) : R :=
  ((Point.x q - Point.x p) * (Point.x q - Point.x p) +
   (Point.y q - Point.y p) * (Point.y q - Point.y p))%R.

(** A point without the character that produced it. *)
Definition place (p : Point.t) : R * R * Z * bool :=
  (Point.x p, Point.y p, Point.angle p, Point.isSpace p).

(** The loop state without the characters of its points. *)
Definition shape (t : Turtle)
  : R * R * Z * list Command * (R * R * R * R) * list (R * R * Z * bool) :=
  (currentX t, currentY t, currentAngle t, pathD t,
   (min_x t, max_x t, min_y t, max_y t), map place (calculatedPoints t)).

(** Two characters that the loop body treats alike. *)
Definition alike (c c' : jsstring) : Prop :=
  is_space c = is_space c' /\ getDegreeForChar c = getDegreeForChar c'.

(** The loop state [t'] is the loop state [t] magnified by [k]. *)
Definition magnified (k : R) (t t' : Turtle) : Prop :=
  currentX t' = (k * currentX t)%R /\ currentY t' = (k * currentY t)%R /\
  currentAngle t' = currentAngle t /\
  min_x t' = (k * min_x t)%R /\ max_x t' = (k * max_x t)%R /\
  min_y t' = (k * min_y t)%R /\ max_y t' = (k * max_y t)%R /\
  map (fun p => (Point.x p, Point.y p)) (calculatedPoints t') =
  map (fun p => ((k * Point.x p)%R, (k * Point.y p)%R)) (calculatedPoints t).

(** Equality of two optional angles, as a test. *)
Definition same_degree (a b : option Z) : bool :=
  match a, b with
  | Some x, Some y => x =? y
  | None, None => true
  | _, _ => false
  end.

Module Camera.

Import CurveCanvas.
Local Open Scope R_scope.

(** Agreement of two numbers within a floating-point tolerance, taken
    generously: one part in a thousand of the larger magnitude, plus as
    much in absolute terms. *)
Definition tolerance : R := 1 / 1000.

Definition close (a b : R) : Prop :=
  Rabs (a - b) <= tolerance * (1 + Rmax (Rabs a) (Rabs b)).

Definition close_viewBox (v w : ViewBox) : Prop :=
  close (vx v) (vx w) /\
  close (vy v) (vy w) /\
  close (vw v) (vw w) /\
  close (vh v) (vh w).

(** The buttons that start a pan: middle, right, or left with Alt. *)
Definition pan_initiating (e : MouseEvent) : bool :=
  ((button e =? 1) || (button e =? 2) || ((button e =? 0) && altKey e))%Z%bool.

(** The extent [(x0, x1, y0, y1)] holds the extent [inner]. *)
Definition holds (outer inner : R * R * R * R) : Prop :=
  match outer, inner with
  | (x0, x1, y0, y1), (a0, a1, b0, b1) =>
      x0 <= a0 /\ a1 <= x1 /\ y0 <= b0 /\ b1 <= y1
  end.

(** The extent is not inverted. *)
Definition ordered (e : R * R * R * R) : Prop :=
  match e with (x0, x1, y0, y1) => x0 <= x1 /\ y0 <= y1 end.

(** The extent of a prepared layer where it is drawn: its bounds moved by
    its position. *)
Definition drawn_extent (q : Prepared) : R * R * R * R :=
  (CircularSystem.minX (preparedBounds q) + Types.Layer.x (layer q),
   CircularSystem.maxX (preparedBounds q) + Types.Layer.x (layer q),
   CircularSystem.minY (preparedBounds q) + Types.Layer.y (layer q),
   CircularSystem.maxY (preparedBounds q) + Types.Layer.y (layer q)).

(** What [preparedLayers] holds for a visible layer. *)
Definition prepare (l : Types.Layer.t) : Prepared :=
  let g := CircularSystem.generatePathData
             (Types.Layer.text l) (Types.Layer.segmentLength l) in
  mkPrepared l (CircularSystem.pathData g) (CircularSystem.bounds g).

(** The canvas is idle: neither panning nor dragging. *)
Definition idle (s : CanvasState) : Prop :=
  panState s = None /\ dragState s = None.

End Camera.

Module Loop.

Import App.

(** A layer list with one layer whose text is empty, as "add layer" makes
    them. *)
Definition blank : AppState :=
  setLayers [Layer.mk "1" "Base Layer" [] "#1e293b" 0 0 false true
               DEFAULT_SEGMENT_LENGTH] app_initial.

(** The Euclidean distance of a point of the plane from the origin. *)
Definition euclidean (e : R * R) : R :=
  sqrt (fst e * fst e + snd e * snd e).

(** The closure condition of the specification on the text [newText] of a
    layer with segment length [len], for the seed [seed]: the text is
    longer than max(4 x seed length, 40) and the end point of its path is
    less than 0.5 from the origin. *)
Definition closed (seed newText : jsstring) (len : R) : Prop :=
  Z.max (length seed * 4) 40 < length newText /\
  (euclidean (endPoint (generatePathData newText len)) < 1 / 2)%R.

(** The center of the bounding box of the path of [newText]. *)
Definition centerX (newText : jsstring) (len : R) : R :=
  let b := bounds (generatePathData newText len) in (minX b + width b / 2)%R.

Definition centerY (newText : jsstring) (len : R) : R :=
  let b := bounds (generatePathData newText len) in (minY b + height b / 2)%R.

(** The loop is stopped in [s'], coming from [s]: the flag is down, the ref
    holds no live handle and the handle it held is no longer scheduled. *)
Definition stopped (s s' : AppState) : Prop :=
  isLooping s' = false /\
  liveHandle (loopIntervalRef s') = None /\
  (forall h, liveHandle (loopIntervalRef s) = Some h ->
             ~ In h (scheduled (window s'))).

(** The loop goes on in [s'] as in [s]. *)
Definition running (s s' : AppState) : Prop :=
  isLooping s' = isLooping s /\
  loopIntervalRef s' = loopIntervalRef s /\
  window s' = window s.

(** The layer [cur] with its text replaced, and with its text and position
    replaced. *)
Definition grown (cur : Layer.t) (newText : jsstring) : Layer.t :=
  Layer.mk (Layer.id cur) (Layer.name cur) newText (Layer.color cur)
    (Layer.x cur) (Layer.y cur) (Layer.locked cur) (Layer.visible cur)
    (Layer.segmentLength cur).

Definition moved (cur : Layer.t) (newText : jsstring) (x y : R) : Layer.t :=
  Layer.mk (Layer.id cur) (Layer.name cur) newText (Layer.color cur)
    x y (Layer.locked cur) (Layer.visible cur) (Layer.segmentLength cur).

(** The ids of a list of layers. *)
Definition ids (ls : list Layer.t) : list string := map Layer.id ls.

(** The [n] characters that the loop appends from the cursor [i] on: the
    seed read cyclically. *)
Definition cycle (seed : jsstring) (i : Z) (n : nat) : jsstring :=
  map (fun k => nth (Z.to_nat ((i + Z.of_nat k) mod length seed)) seed 0)
      (seq 0 n).

(** The handles handed out so far are below the next one, which is
    positive. *)
Definition fresh (w : Window) : Prop :=
  0 < nextHandle w /\ Forall (fun h => h < nextHandle w) (scheduled w).

(** The bounding box of the path of the layer, drawn at the position of
    the layer, is centered on the origin. *)
Definition centered (l : Layer.t) : Prop :=
  let b := bounds (generatePathData (Layer.text l) (Layer.segmentLength l)) in
  (minX b + Layer.x l = - (maxX b + Layer.x l) /\
   minY b + Layer.y l = - (maxY b + Layer.y l))%R.

(** The test of the filter of [handleDeleteLayer]. *)
Definition keeps (id : string) (l : Layer.t) : bool :=
  negb (String.eqb (Layer.id l) id).

(** The layer [l] moved by [(dx, dy)]. *)
Definition shifted (l : Layer.t) (dx dy : R) : Layer.t :=
  Layer.mk (Layer.id l) (Layer.name l) (Layer.text l) (Layer.color l)
    (Layer.x l + dx) (Layer.y l + dy) (Layer.locked l) (Layer.visible l)
    (Layer.segmentLength l).

(** A heading that is a whole number of turns: the turtle looks along the
    x axis. *)
Definition upright (a : Z) : Prop :=
  cos (IZR a * PI / 180) = 1%R /\ sin (IZR a * PI / 180) = 0%R.

(** The loop state of a path that has gone out along the x axis and come
    back to the origin, as the text N N N N ... does after every second
    letter (N turns by 180 degrees). *)
Definition back_at_origin (len : R) (t : Turtle) : Prop :=
  currentX t = 0%R /\ currentY t = 0%R /\ upright (currentAngle t) /\
  (- len <= min_x t <= 0)%R /\ max_x t = 0%R /\
  min_y t = 0%R /\ max_y t = 0%R.

(** A loop on the seed "N" with segment length 10, as it stands after 40
    ticks: the text is 41 times N, the cursor is 40, the flag is up and the
    interval 1 is scheduled. *)
Definition closing : AppState :=
  {| layers := [Layer.mk "1" "Base Layer" (repeat 78 41) "#1e293b"
                  0 0 false true 10];
     activeLayerId := "1";
     isLooping := true;
     loopIntervalRef := Some 1;
     loopSeedRef := [78];
     loopIndexRef := 40;
     window := mkWindow [1] 2 |}.

(** The layer of [closing]. *)
Definition closing_layer : Layer.t :=
  Layer.mk "1" "Base Layer" (repeat 78 41) "#1e293b" 0 0 false true 10.

End Loop.

End Spec.

(* ================================================================== *)
(** * Properties of the rotary alphabet *)
(* ================================================================== *)

Module AlphabetSpec.

Import JS Types CircularSystem Spec.
Local Open Scope Z_scope.

Lemma in_indices (i : Z) : 0 <= i <= 25 -> In i indices.
Proof.
  intros Hi. unfold indices. apply in_map_iff.
  exists (Z.to_nat i). split; [lia | apply in_seq; lia].
Qed.

Lemma over_indices (P : Z -> Prop) :
  Forall P indices -> forall i, 0 <= i <= 25 -> P i.
Proof.
  intros HP i Hi. rewrite Forall_forall in HP. apply HP, in_indices, Hi.
Qed.

Lemma degree_upper (i : Z) :
  0 <= i <= 25 -> getDegreeForChar [65 + i] = Some (angle i).
Proof.
  revert i. apply over_indices. unfold indices.
  repeat constructor; vm_compute; reflexivity.
Qed.

Lemma degree_lower (i : Z) :
  0 <= i <= 25 -> getDegreeForChar [97 + i] = Some (angle i).
Proof.
  revert i. apply over_indices. unfold indices.
  repeat constructor; vm_compute; reflexivity.
Qed.

Lemma degree_upper_code (u : Z) :
  65 <= u <= 90 -> getDegreeForChar [u] = Some (angle (u - 65)).
Proof.
  intros Hu. replace u with (65 + (u - 65)) at 1 by lia.
  apply degree_upper. lia.
Qed.

Lemma degree_lower_code (u : Z) :
  97 <= u <= 122 -> getDegreeForChar [u] = Some (angle (u - 97)).
Proof.
  intros Hu. replace u with (97 + (u - 97)) at 1 by lia.
  apply degree_lower. lia.
Qed.

Lemma angle_nearest (i : Z) :
  0 <= i <= 25 -> nearest (angle i) (inject_Z (2 * i * 360) / inject_Z 52).
Proof.
  revert i. apply over_indices. unfold indices.
  repeat constructor; vm_compute; reflexivity.
Qed.

Lemma angle_step (i : Z) : 0 <= i <= 25 -> angle i + 13 <= angle (i + 1).
Proof.
  revert i. apply over_indices. unfold indices.
  repeat constructor; vm_compute; discriminate.
Qed.

Lemma angle_increasing (i j : Z) :
  0 <= i -> i < j -> j <= 25 -> angle i < angle j.
Proof.
  intros Hi Hij Hj.
  replace j with (i + 1 + Z.of_nat (Z.to_nat (j - i - 1))) in * by lia.
  induction (Z.to_nat (j - i - 1)) as [|n IH].
  - rewrite Z.add_0_r. pose proof (angle_step i). lia.
  - assert (H : angle i < angle (i + 1 + Z.of_nat n)) by (apply IH; lia).
    pose proof (angle_step (i + 1 + Z.of_nat n)) as Hs.
    replace (i + 1 + Z.of_nat (S n)) with (i + 1 + Z.of_nat n + 1) by lia.
    lia.
Qed.

(** C5.  For every letter of index [i] in 0..25, in either case,
    [getDegreeForChar] returns round(2 i 360 / 52), the integer nearest to
    that quotient; 'A' has angle 0, 'Z' has angle 346, and the angle grows
    strictly with the index of the letter. *)
Theorem getDegreeForChar_letter (i j : Z) :
  0 <= i <= 25 -> 0 <= j <= 25 ->
  getDegreeForChar [65 + i] = Some (angle i) /\
  getDegreeForChar [97 + i] = Some (angle i) /\
  nearest (angle i) (inject_Z (2 * i * 360) / inject_Z 52) /\
  getDegreeForChar (of_string "A") = Some 0 /\
  getDegreeForChar (of_string "Z") = Some 346 /\
  (i < j ->
   exists a b, getDegreeForChar [65 + i] = Some a /\
               getDegreeForChar [65 + j] = Some b /\ a < b).
Proof.
  intros Hi Hj.
  split; [apply degree_upper, Hi|].
  split; [apply degree_lower, Hi|].
  split; [apply angle_nearest, Hi|].
  split; [vm_compute; reflexivity|].
  split; [vm_compute; reflexivity|].
  intros Hij. exists (angle i), (angle j).
  split; [apply degree_upper, Hi|].
  split; [apply degree_upper, Hj|].
  apply angle_increasing; lia.
Qed.

Lemma getDegreeForChar_letter_witness :
  getDegreeForChar [65 + 18] = Some (angle 18) /\
  getDegreeForChar [97 + 18] = Some (angle 18) /\
  nearest (angle 18) (inject_Z (2 * 18 * 360) / inject_Z 52) /\
  getDegreeForChar (of_string "A") = Some 0 /\
  getDegreeForChar (of_string "Z") = Some 346 /\
  (18 < 25 ->
   exists a b, getDegreeForChar [65 + 18] = Some a /\
               getDegreeForChar [65 + 25] = Some b /\ a < b).
Proof. apply (getDegreeForChar_letter 18 25); lia. Defined.

End AlphabetSpec.

(* ================================================================== *)
(** * Properties of the path generator *)
(* ================================================================== *)

Module GeneratorSpec.

Import JS Types CircularSystem Spec.
Local Open Scope Z_scope.

(** ** The string iterator *)

Lemma iterate_cons (u : Z) (rest : jsstring) :
  is_high_surrogate u = false -> iterate (u :: rest) = [u] :: iterate rest.
Proof.
  intros Hu. destruct rest as [|v rest]; simpl; [reflexivity|].
  rewrite Hu. reflexivity.
Qed.

Lemma iterate_cons2 (x y : Z) (rest : jsstring) :
  iterate (x :: y :: rest) =
  if is_high_surrogate x && is_low_surrogate y
  then [x; y] :: iterate rest
  else [x] :: iterate (y :: rest).
Proof. reflexivity. Qed.

Lemma iterate_app_bounded (n : nat) :
  forall (a : jsstring) (u : Z) (b : jsstring),
    (List.length a <= n)%nat -> is_low_surrogate u = false ->
    iterate (a ++ u :: b) = iterate a ++ iterate (u :: b).
Proof.
  induction n as [|n IH]; intros a u b Hlen Hu.
  - destruct a; [reflexivity | simpl in Hlen; lia].
  - destruct a as [|x [|y a]].
    + reflexivity.
    + change ([x] ++ u :: b) with (x :: u :: b).
      rewrite iterate_cons2, Hu, andb_false_r. reflexivity.
    + change ((x :: y :: a) ++ u :: b) with (x :: y :: (a ++ u :: b)).
      rewrite !iterate_cons2.
      destruct (is_high_surrogate x && is_low_surrogate y).
      * rewrite (IH a u b); [reflexivity | simpl in Hlen; lia | exact Hu].
      * change (y :: a ++ u :: b) with ((y :: a) ++ u :: b).
        rewrite (IH (y :: a) u b); [reflexivity | simpl in *; lia | exact Hu].
Qed.

Lemma iterate_app (a : jsstring) (u : Z) (b : jsstring) :
  is_low_surrogate u = false ->
  iterate (a ++ u :: b) = iterate a ++ iterate (u :: b).
Proof. apply (iterate_app_bounded (List.length a)). lia. Qed.

(** ** The loop body, case by case *)

Lemma body_space (len : R) (t : Turtle) :
  body len t [32] = emit len t [32] true (currentAngle t).
Proof. reflexivity. Qed.

Lemma body_degree (len : R) (t : Turtle) (char : jsstring) (d : Z) :
  is_space char = false -> getDegreeForChar char = Some d ->
  body len t char = emit len t char false (currentAngle t + d).
Proof. intros Hs Hd. unfold body. rewrite Hs, Hd. reflexivity. Qed.

Lemma body_skip (len : R) (t : Turtle) (char : jsstring) :
  emits char = false -> body len t char = t.
Proof.
  unfold emits, body. intros H. apply orb_false_iff in H as [Hs Hd].
  rewrite Hs. cbn [negb]. destruct (getDegreeForChar char); [discriminate | reflexivity].
Qed.

Lemma body_emit (len : R) (t : Turtle) (char : jsstring) :
  emits char = true ->
  exists a, body len t char = emit len t char (is_space char) a.
Proof.
  unfold emits, body. intros H.
  destruct (is_space char); cbn [negb orb] in *.
  - eexists. reflexivity.
  - destruct (getDegreeForChar char); [eexists; reflexivity | discriminate].
Qed.

(** ** Invariants of the loop *)

(** A property of the loop state that holds at the start and that every
    emitted point preserves holds when the loop ends. *)
Section Invariant.

Variable P : Turtle -> Prop.
Hypothesis P_start : P start.
Hypothesis P_emit :
  forall len t c sp a, P t -> P (emit len t c sp a).

Lemma body_invariant (len : R) (t : Turtle) (c : jsstring) :
  P t -> P (body len t c).
Proof.
  intros H. destruct (emits c) eqn:E.
  - destruct (body_emit len t c E) as [a ->]. apply P_emit, H.
  - rewrite (body_skip len t c E). exact H.
Qed.

Lemma fold_invariant (len : R) (cs : list jsstring) :
  forall t, P t -> P (fold_left (body len) cs t).
Proof.
  induction cs as [|c cs IH]; intros t H; cbn [fold_left]; [exact H|].
  apply IH, body_invariant, H.
Qed.

Lemma run_invariant (text : jsstring) (len : R) : P (run text len).
Proof. apply fold_invariant, P_start. Qed.

End Invariant.

(** ** Counting the points *)

Lemma points_of_fold (len : R) (cs : list jsstring) :
  forall t,
    List.length (calculatedPoints (fold_left (body len) cs t)) =
    (List.length (calculatedPoints t) + List.length (filter emits cs))%nat.
Proof.
  induction cs as [|c cs IH]; intros t; cbn [fold_left filter].
  - cbn [List.length]. lia.
  - rewrite IH. destruct (emits c) eqn:E.
    + destruct (body_emit len t c E) as [a ->].
      cbn [emit calculatedPoints List.length]. rewrite length_app. simpl. lia.
    + rewrite (body_skip len t c E). lia.
Qed.

(** One point for the start and one for each character that the loop body
    draws. *)
Lemma points_count (text : jsstring) (len : R) :
  List.length (points (generatePathData text len)) =
  S (List.length (filter emits (iterate text))).
Proof.
  unfold generatePathData, run. cbn [points].
  rewrite points_of_fold. reflexivity.
Qed.

Lemma valid_char_emits (char : jsstring) :
  valid_char char = true -> emits char = true.
Proof.
  destruct char as [|u [|v rest]]; cbn [valid_char]; try discriminate.
  intros H. unfold emits, is_space.
  destruct (u =? 32) eqn:E32; [reflexivity|]. cbn [orb] in *.
  apply orb_true_iff in H as [H|H]; apply andb_true_iff in H as [H1 H2];
    apply Z.leb_le in H1, H2.
  - rewrite (AlphabetSpec.degree_upper_code u) by lia. reflexivity.
  - rewrite (AlphabetSpec.degree_lower_code u) by lia. reflexivity.
Qed.

(** ** The first step from the start *)

Lemma next_point_heading_0 (x y len : R) :
  calculateNextPoint x y 0 len = ((x + len)%R, y).
Proof.
  unfold calculateNextPoint.
  replace (IZR 0 * PI / 180)%R with 0%R by (unfold Rdiv; ring).
  rewrite cos_0, sin_0. f_equal; ring.
Qed.

Lemma run_A (len : R) :
  run (of_string "A") len = emit len start [65] false 0.
Proof. reflexivity. Qed.

Lemma run_sharp_s (len : R) :
  run [223] len = emit len start [223] false 249.
Proof. reflexivity. Qed.

(** ** The extrema *)

Lemma emit_around_origin (len : R) (t : Turtle) (c : jsstring) (sp : bool) (a : Z) :
  around_origin t -> around_origin (emit len t c sp a).
Proof.
  unfold around_origin. intros [[H1 H2] [H3 H4]]. cbn [emit min_x max_x min_y max_y].
  repeat split.
  - eapply Rle_trans; [apply Rmin_l | exact H1].
  - eapply Rle_trans; [exact H2 | apply Rmax_l].
  - eapply Rle_trans; [apply Rmin_l | exact H3].
  - eapply Rle_trans; [exact H4 | apply Rmax_l].
Qed.

Lemma start_around_origin : around_origin start.
Proof. unfold around_origin. cbn. lra. Qed.

Lemma run_around_origin (text : jsstring) (len : R) :
  around_origin (run text len).
Proof.
  apply run_invariant; [exact start_around_origin|].
  intros l t c sp a. apply emit_around_origin.
Qed.

Lemma least_snoc (f : Point.t -> R) (p : Point.t) (ps : list Point.t) (q : Point.t) :
  least f p (ps ++ [q]) = Rmin (least f p ps) (f q).
Proof. unfold least. rewrite map_app, fold_left_app. reflexivity. Qed.

Lemma greatest_snoc (f : Point.t -> R) (p : Point.t) (ps : list Point.t) (q : Point.t) :
  greatest f p (ps ++ [q]) = Rmax (greatest f p ps) (f q).
Proof. unfold greatest. rewrite map_app, fold_left_app. reflexivity. Qed.

Lemma emit_boxed (len : R) (t : Turtle) (c : jsstring) (sp : bool) (a : Z) :
  boxed t -> boxed (emit len t c sp a).
Proof.
  intros (p & ps & Hp & H1 & H2 & H3 & H4).
  exists p, (ps ++ [Point.mk (fst (calculateNextPoint (currentX t) (currentY t) a len))
                             (snd (calculateNextPoint (currentX t) (currentY t) a len))
                             c a sp]).
  cbn [emit calculatedPoints min_x max_x min_y max_y].
  rewrite Hp, !least_snoc, !greatest_snoc, <- H1, <- H2, <- H3, <- H4.
  repeat split; reflexivity.
Qed.

Lemma run_boxed (text : jsstring) (len : R) : boxed (run text len).
Proof.
  apply run_invariant.
  - exists (Point.mk 0 0 [] 0 false), []. repeat split; reflexivity.
  - intros l t c sp a. apply emit_boxed.
Qed.

(** The first point is the synthetic start point. *)
Lemma run_first_point (text : jsstring) (len : R) :
  hd_error (calculatedPoints (run text len)) = Some (Point.mk 0 0 [] 0 false).
Proof.
  apply (run_invariant
           (fun t => hd_error (calculatedPoints t) = Some (Point.mk 0 0 [] 0 false))).
  - reflexivity.
  - intros l t c sp a Ht. cbn [emit calculatedPoints].
    destruct (calculatedPoints t); [discriminate | exact Ht].
Qed.

(** ** Texts of Basic Latin *)

Lemma emits_basic_latin (u : Z) :
  0 <= u <= 127 -> emits [u] = valid_char [u].
Proof.
  intros Hu.
  assert (H : forallb (fun v => Bool.eqb (emits [v]) (valid_char [v]))
                (map Z.of_nat (seq 0 128)) = true) by (vm_compute; reflexivity).
  rewrite forallb_forall in H. apply eqb_prop, H, in_map_iff.
  exists (Z.to_nat u). split; [lia | apply in_seq; lia].
Qed.

Lemma iterate_basic_latin (text : jsstring) :
  basic_latin text -> iterate text = map (fun u => [u]) text.
Proof.
  induction 1 as [|u text Hu _ IH]; [reflexivity|].
  rewrite iterate_cons, IH; [reflexivity|].
  unfold is_high_surrogate. apply andb_false_iff. left. apply Z.leb_gt. lia.
Qed.

(** On a text of Basic Latin the count of the specification is right. *)
Lemma points_count_basic_latin (text : jsstring) (len : R) :
  basic_latin text ->
  List.length (points (generatePathData text len)) = S (count_valid text).
Proof.
  intros H. rewrite points_count. unfold count_valid.
  rewrite (iterate_basic_latin text H). f_equal. f_equal.
  induction H as [|u text Hu _ IH]; [reflexivity|].
  cbn [map filter]. rewrite (emits_basic_latin u Hu), IH. reflexivity.
Qed.

(** ** The claims on the generator *)

(** C1, as the code has it.  For every text and segment length, the bounds
    returned by [generatePathData] are the minimum and maximum of the x and
    of the y coordinates over all the points of the path, the synthetic
    start point at the origin included, with the width and height between
    them; when the text emits no point, they are the zero-size box at the
    origin. *)
Theorem bounds_over_all_points (text : jsstring) (len : R) :
  hd_error (points (generatePathData text len)) = Some (Point.mk 0 0 [] 0 false) /\
  bounds (generatePathData text len) = box (points (generatePathData text len)) /\
  (emitted (generatePathData text len) = [] ->
   bounds (generatePathData text len) = mkBounds 0 0 0 0 0 0).
Proof.
  split; [apply run_first_point|].
  destruct (run_boxed text len) as (p & ps & Hp & H1 & H2 & H3 & H4).
  assert (Hbox : bounds (generatePathData text len) =
                 box (points (generatePathData text len))).
  { unfold generatePathData. cbn [bounds points]. rewrite Hp. cbn [box].
    rewrite H1, H2, H3, H4. reflexivity. }
  split; [exact Hbox|].
  intros He. rewrite Hbox. unfold emitted in He.
  assert (Hstart : hd_error (points (generatePathData text len)) =
                   Some (Point.mk 0 0 [] 0 false))
    by apply run_first_point.
  destruct (points (generatePathData text len)) as [|q qs]; [discriminate|].
  cbn [tl] in He. subst qs. cbn [hd_error] in Hstart. injection Hstart as ->.
  unfold box, least, greatest. cbn [map fold_left Point.x Point.y].
  f_equal; ring.
Qed.

Lemma bounds_over_all_points_witness :
  emitted (generatePathData (of_string "1+2") 10) = [] /\
  bounds (generatePathData (of_string "1+2") 10) = mkBounds 0 0 0 0 0 0.
Proof.
  split; [reflexivity|].
  destruct (bounds_over_all_points (of_string "1+2") 10) as (_ & _ & H).
  apply H. reflexivity.
Defined.

(** C1, as stated, fails on the text "A" with segment length 10: the only
    emitted point is (10, 0), so that the box around the emitted points has
    minX = 10, while the code returns minX = 0. *)
Lemma bounds_not_over_emitted_points :
  bounds (generatePathData (of_string "A") 10) <>
  box (emitted (generatePathData (of_string "A") 10)).
Proof.
  intros H. apply (f_equal minX) in H. revert H.
  unfold generatePathData, emitted. rewrite run_A.
  cbn [bounds points minX emit calculatedPoints start min_x currentX currentY
       app tl box least map fold_left Point.x].
  rewrite next_point_heading_0. cbn [fst].
  rewrite Rmin_left by lra. lra.
Qed.

(** C4, at the failing input.  The text made of the one character U+00DF
    (sharp s) holds no space and no letter A-Z or a-z, yet the path has two
    points: the start and one for the sharp s. *)
Theorem sharp_s_adds_a_point (len : R) :
  count_valid [223] = 0%nat /\
  List.length (points (generatePathData [223] len)) = 2%nat /\
  List.length (points (generatePathData [223] len)) <> S (count_valid [223]).
Proof.
  assert (H : List.length (points (generatePathData [223] len)) = 2%nat)
    by (rewrite points_count; reflexivity).
  split; [reflexivity|]. split; [exact H|].
  rewrite H. cbv. discriminate.
Qed.

(** C7.  Wherever a space stands in the text, the loop body leaves the
    heading as it is, computes the next point [segmentLength] units from the
    current position along that heading (dx = L cos, dy = - L sin), appends
    a move command to it rather than a line command, advances the turtle to
    it, and pushes a point record with [isSpace = true]. *)
Theorem space_is_a_pen_up_move (before after : jsstring) (len : R) :
  let t := run before len in
  let t' := body len t [32] in
  let theta := (IZR (currentAngle t) * PI / 180)%R in
  run (before ++ [32] ++ after) len = fold_left (body len) (iterate after) t' /\
  currentAngle t' = currentAngle t /\
  currentX t' = (currentX t + len * cos theta)%R /\
  currentY t' = (currentY t - len * sin theta)%R /\
  pathD t' = pathD t ++ [M (currentX t') (currentY t')] /\
  calculatedPoints t' =
    calculatedPoints t ++
    [Point.mk (currentX t') (currentY t') [32] (currentAngle t) true].
Proof.
  cbv zeta. split.
  - unfold run. cbn [app]. rewrite iterate_app by reflexivity.
    rewrite iterate_cons by reflexivity.
    rewrite fold_left_app. reflexivity.
  - rewrite body_space. repeat split; reflexivity.
Qed.

(** C9.  For every text and segment length, the bounds contain the origin,
    minX <= 0 <= maxX and minY <= 0 <= maxY, and so the width and the height
    are not negative; this holds also where every emitted point lies
    strictly on one side of the origin, as for the text "A" with segment
    length 10, whose one emitted point is (10, 0) and whose minX is 0. *)
Theorem bounds_contain_origin (text : jsstring) (len : R) :
  let b := bounds (generatePathData text len) in
  let a := generatePathData (of_string "A") 10 in
  (minX b <= 0 <= maxX b)%R /\ (minY b <= 0 <= maxY b)%R /\
  (0 <= width b)%R /\ (0 <= height b)%R /\
  emitted a = [Point.mk 10 0 (of_string "A") 0 false] /\
  minX (bounds a) = 0%R.
Proof.
  cbv zeta. destruct (run_around_origin text len) as [[H1 H2] [H3 H4]].
  unfold generatePathData. cbn [bounds minX maxX minY maxY width height].
  repeat split; try assumption; try lra.
  - unfold emitted. cbn [points]. rewrite run_A.
    cbn [emit calculatedPoints start app tl currentX currentY].
    rewrite next_point_heading_0. cbn [fst snd].
    f_equal. f_equal. ring.
  - rewrite run_A. cbn [emit min_x start currentX currentY].
    rewrite next_point_heading_0. cbn [fst].
    apply Rmin_left. lra.
Qed.



End GeneratorSpec.

(* ================================================================== *)
(** * Properties of the camera *)
(* ================================================================== *)

Module CanvasSpec.

Import CurveCanvas Spec Spec.Camera.
Local Open Scope R_scope.

(** ** Zoom *)

Lemma wheel_in (d : R) (s : CanvasState) :
  d <= 0 ->
  viewBox (handleWheel d s) =
  mkViewBox (vx (viewBox s) + (vw (viewBox s) - vw (viewBox s) * (9 / 10)) / 2)
            (vy (viewBox s) + (vh (viewBox s) - vh (viewBox s) * (9 / 10)) / 2)
            (vw (viewBox s) * (9 / 10)) (vh (viewBox s) * (9 / 10)).
Proof.
  intros Hd. unfold handleWheel.
  destruct (Rlt_dec 0 d) as [H|H]; [lra | reflexivity].
Qed.

Lemma wheel_out (d : R) (s : CanvasState) :
  0 < d ->
  viewBox (handleWheel d s) =
  mkViewBox (vx (viewBox s) + (vw (viewBox s) - vw (viewBox s) * (11 / 10)) / 2)
            (vy (viewBox s) + (vh (viewBox s) - vh (viewBox s) * (11 / 10)) / 2)
            (vw (viewBox s) * (11 / 10)) (vh (viewBox s) * (11 / 10)).
Proof.
  intros Hd. unfold handleWheel.
  destruct (Rlt_dec 0 d) as [H|H]; [reflexivity | lra].
Qed.

(** Two numbers that are close, the smaller not negative, differ by at most
    the tolerance applied to the larger. *)
Lemma close_ordered (a b : R) :
  0 <= a <= b -> close a b -> b - a <= tolerance * (1 + b).
Proof.
  intros [Ha Hab]. unfold close.
  rewrite (Rabs_left1 (a - b)) by lra.
  rewrite (Rabs_right a), (Rabs_right b) by lra.
  rewrite Rmax_right by lra. lra.
Qed.

(** C2, as the code has it.  For every view rectangle, zooming in and then
    out keeps the center of the rectangle where it was, and leaves its
    width and height at 0.9 x 1.1 = 0.99 of what they were with the wheel,
    at 0.8 x 1.2 = 0.96 of what they were with the buttons; auto-fit is
    off afterwards. *)
Theorem zoom_in_then_out (s : CanvasState) (din dout : R) :
  din <= 0 -> 0 < dout ->
  let v := viewBox s in
  let w := viewBox (handleWheel dout (handleWheel din s)) in
  let b := viewBox (zoomOutClick (zoomInClick s)) in
  vw w = 99 / 100 * vw v /\ vh w = 99 / 100 * vh v /\
  vx w + vw w / 2 = vx v + vw v / 2 /\
  vy w + vh w / 2 = vy v + vh v / 2 /\
  vw b = 96 / 100 * vw v /\ vh b = 96 / 100 * vh v /\
  vx b + vw b / 2 = vx v + vw v / 2 /\
  vy b + vh b / 2 = vy v + vh v / 2 /\
  isAutoFit (handleWheel dout (handleWheel din s)) = false /\
  isAutoFit (zoomOutClick (zoomInClick s)) = false.
Proof.
  intros Hin Hout. cbv zeta.
  rewrite (wheel_out dout (handleWheel din s) Hout), (wheel_in din s Hin).
  cbn [vx vy vw vh zoomOutClick zoomInClick setViewBox setIsAutoFit viewBox isAutoFit].
  repeat split; try reflexivity; lra.
Qed.

Lemma zoom_in_then_out_witness :
  let w := viewBox (handleWheel 1 (handleWheel (-1) canvas_initial)) in
  let b := viewBox (zoomOutClick (zoomInClick canvas_initial)) in
  vw w = 99 / 100 * 100 /\ vh w = 99 / 100 * 100 /\
  vx w + vw w / 2 = -50 + 100 / 2 /\
  vy w + vh w / 2 = -50 + 100 / 2 /\
  vw b = 96 / 100 * 100 /\ vh b = 96 / 100 * 100 /\
  vx b + vw b / 2 = -50 + 100 / 2 /\
  vy b + vh b / 2 = -50 + 100 / 2 /\
  isAutoFit (handleWheel 1 (handleWheel (-1) canvas_initial)) = false /\
  isAutoFit (zoomOutClick (zoomInClick canvas_initial)) = false.
Proof. apply (zoom_in_then_out canvas_initial (-1) 1); lra. Defined.

(** C2, as stated, fails on the initial view rectangle (-50, -50, 100, 100):
    after a wheel step in and a wheel step out the width is 99, after the
    two buttons it is 96, neither within tolerance of 100. *)
Lemma zoom_round_trip_fails :
  ~ close_viewBox (viewBox (handleWheel 1 (handleWheel (-1) canvas_initial)))
                  (viewBox canvas_initial) /\
  ~ close_viewBox (viewBox (zoomOutClick (zoomInClick canvas_initial)))
                  (viewBox canvas_initial).
Proof.
  split; intros (_ & _ & Hw & _); revert Hw.
  - rewrite wheel_out, wheel_in by lra.
    cbn [vw viewBox canvas_initial]. intros Hw.
    apply close_ordered in Hw; unfold tolerance in *; lra.
  - cbn [vw viewBox canvas_initial zoomOutClick zoomInClick setViewBox setIsAutoFit].
    intros Hw.
    apply close_ordered in Hw; unfold tolerance in *; lra.
Qed.

(** ** Pan *)

Lemma pan_move (p : PanState.t) (e : MouseEvent) (g : Svg) (s : CanvasState) :
  panState s = Some p ->
  handleGlobalMouseMove e (Some g) s =
  (setViewBox
     (mkViewBox
        (vx (PanState.startViewBox p) -
         (clientX e - PanState.startX p) * (vw (PanState.startViewBox p) / rect_width g))
        (vy (PanState.startViewBox p) -
         (clientY e - PanState.startY p) * (vh (PanState.startViewBox p) / rect_height g))
        (vw (PanState.startViewBox p)) (vh (PanState.startViewBox p))) s,
   None).
Proof. intros Hp. unfold handleGlobalMouseMove. rewrite Hp. reflexivity. Qed.

Lemma pan_move_unrendered (p : PanState.t) (e : MouseEvent) (s : CanvasState) :
  panState s = Some p -> handleGlobalMouseMove e None s = (s, None).
Proof. intros Hp. unfold handleGlobalMouseMove. rewrite Hp. reflexivity. Qed.

(** C8.  In a pan session that began with a pan-initiating pointer-down at
    the view rectangle [viewBox s0], the snapshot and the pointer start are
    those of the pointer-down; with the canvas rendered at a positive size
    (so that the pixel-to-plane ratio is a number), every pointer-move
    gives a view rectangle
    with the width and height of the snapshot and changes nothing else of
    the state (nothing at all while no canvas is rendered), and a
    pointer-move by (dx, dy) from the start followed by one by (-dx, -dy)
    gives back the view rectangle of the pointer-down, exactly. *)
Theorem pan_there_and_back
    (s0 s : CanvasState) (down e : MouseEvent) (g g' : Svg) (dx dy : R) :
  pan_initiating down = true ->
  panState s = panState (handleMouseDown down s0) ->
  0 < rect_width g /\ 0 < rect_height g ->
  0 < rect_width g' /\ 0 < rect_height g' ->
  let s1 := fst (handleGlobalMouseMove e (Some g) s) in
  let there :=
    mkMouseEvent (button e) (altKey e) (clientX down + dx) (clientY down + dy) in
  let back :=
    mkMouseEvent (button e) (altKey e) (clientX there + - dx) (clientY there + - dy) in
  let s2 :=
    fst (handleGlobalMouseMove back (Some g')
           (fst (handleGlobalMouseMove there (Some g) s))) in
  panState s = Some (PanState.mk (clientX down) (clientY down) (viewBox s0)) /\
  vw (viewBox s1) = vw (viewBox s0) /\ vh (viewBox s1) = vh (viewBox s0) /\
  panState s1 = panState s /\ dragState s1 = dragState s /\
  isAutoFit s1 = isAutoFit s /\
  snd (handleGlobalMouseMove e (Some g) s) = None /\
  handleGlobalMouseMove e None s = (s, None) /\
  viewBox s2 = viewBox s0.
Proof.
  intros Hdown Hs _ _. cbv zeta.
  assert (Hp : panState s =
               Some (PanState.mk (clientX down) (clientY down) (viewBox s0))).
  { rewrite Hs. unfold handleMouseDown. fold (pan_initiating down).
    rewrite Hdown. reflexivity. }
  split; [exact Hp|].
  rewrite (pan_move _ e g s Hp), (pan_move_unrendered _ e s Hp).
  rewrite (pan_move _ _ g s Hp).
  cbn [fst snd viewBox panState dragState isAutoFit setViewBox vw vh
       PanState.startViewBox PanState.startX PanState.startY].
  repeat split; try reflexivity.
  erewrite pan_move by (cbn [panState setViewBox]; exact Hp).
  cbn [fst viewBox setViewBox PanState.startViewBox PanState.startX
       PanState.startY clientX clientY].
  destruct (viewBox s0) as [x y w h]. cbn [vx vy vw vh].
  f_equal; ring.
Qed.

Lemma pan_there_and_back_witness :
  let down := mkMouseEvent 1 false 200 150 in
  let s := handleMouseDown down canvas_initial in
  let there := mkMouseEvent 1 false (200 + 30) (150 + -40) in
  let back := mkMouseEvent 1 false (200 + 30 + - 30) (150 + -40 + - -40) in
  let g := mkSvg 800 600 None in
  viewBox (fst (handleGlobalMouseMove back (Some g)
                  (fst (handleGlobalMouseMove there (Some g) s)))) =
  viewBox canvas_initial.
Proof.
  cbv zeta.
  apply (pan_there_and_back canvas_initial (handleMouseDown (mkMouseEvent 1 false 200 150) canvas_initial)
           (mkMouseEvent 1 false 200 150) (mkMouseEvent 1 false 0 0)
           (mkSvg 800 600 None) (mkSvg 800 600 None) 30 (-40)).
  - reflexivity.
  - reflexivity.
  - cbn [rect_width rect_height]. lra.
  - cbn [rect_width rect_height]. lra.
Defined.

End CanvasSpec.

(* ================================================================== *)
(** * Properties of the loop controller *)
(* ================================================================== *)

Module LoopSpec.

Import JS Types CircularSystem App Spec.Loop.
Local Open Scope Z_scope.

(** ** [stopLoop] *)

Lemma clearInterval_unscheduled (h : Z) (w : Window) :
  ~ In h (scheduled (clearInterval h w)).
Proof.
  cbn [clearInterval scheduled]. intros H. apply filter_In in H as [_ H].
  rewrite Z.eqb_refl in H. discriminate.
Qed.

Lemma stopLoop_stopped (s : AppState) : stopped s (stopLoop s).
Proof.
  unfold stopped, stopLoop. cbn [setIsLooping loopIntervalRef window].
  destruct (liveHandle (loopIntervalRef s)) as [h|] eqn:E.
  - repeat split; try reflexivity.
    intros k Hk. injection Hk as <-. apply clearInterval_unscheduled.
  - repeat split; try assumption. intros h Hh. discriminate.
Qed.

Lemma stopLoop_layers (s : AppState) : layers (stopLoop s) = layers s.
Proof.
  unfold stopLoop. cbn [setIsLooping loopIntervalRef window].
  destruct (liveHandle (loopIntervalRef s)); reflexivity.
Qed.

Lemma stopLoop_cursor (s : AppState) :
  loopIndexRef (stopLoop s) = loopIndexRef s /\
  loopSeedRef (stopLoop s) = loopSeedRef s /\
  activeLayerId (stopLoop s) = activeLayerId s.
Proof.
  unfold stopLoop. cbn [setIsLooping loopIntervalRef window].
  destruct (liveHandle (loopIntervalRef s)); repeat split; reflexivity.
Qed.

(** ** The character appended *)

Lemma index_in_range (seed : jsstring) (i : Z) :
  seed <> [] -> 0 <= i ->
  exists u, index seed (Z.rem i (length seed)) = Some [u] /\
            nth_error seed (Z.to_nat (i mod length seed)) = Some u.
Proof.
  intros Hseed Hi.
  assert (Hlen : 0 < length seed).
  { unfold length. destruct seed; [congruence | cbn [List.length]; lia]. }
  rewrite Z.rem_mod_nonneg by lia.
  pose proof (Z.mod_pos_bound i (length seed) Hlen) as Hb.
  unfold index.
  replace (i mod length seed <? 0) with false by (symmetry; apply Z.ltb_ge; lia).
  destruct (nth_error seed (Z.to_nat (i mod length seed))) as [u|] eqn:E.
  - exists u. split; reflexivity.
  - apply nth_error_None in E. unfold length in *. lia.
Qed.

(** ** The callback, case by case *)

Lemma Rltb_true (a b : R) : Rltb a b = true <-> (a < b)%R.
Proof. unfold Rltb. destruct (Rlt_dec a b); split; intros; congruence || assumption. Qed.

(** The distance the callback computes is the Euclidean one. *)
Lemma dist_euclidean (e : R * R) : dist e = euclidean e.
Proof.
  unfold dist, euclidean. f_equal. simpl pow. ring.
Qed.

Lemma closed_test (seed newText : jsstring) (len : R) :
  (Z.max (length seed * 4) 40 <? length newText) &&
  Rltb (dist (endPoint (generatePathData newText len))) (1 / 2) = true
  <-> closed seed newText len.
Proof.
  unfold closed. rewrite andb_true_iff, Z.ltb_lt, Rltb_true, dist_euclidean.
  reflexivity.
Qed.

Lemma tick_appends (s : AppState) (cur : Layer.t) (u : Z) :
  loopSeedRef s <> [] ->
  index (loopSeedRef s) (Z.rem (loopIndexRef s) (length (loopSeedRef s))) = Some [u] ->
  findLayer (activeLayerId s) (layers s) = Some cur ->
  let newText := Layer.text cur ++ [u] in
  let len := Layer.segmentLength cur in
  let s1 := setLoopIndexRef (loopIndexRef s + 1) s in
  tick s =
  if (Z.max (length (loopSeedRef s) * 4) 40 <? length newText) &&
     Rltb (dist (endPoint (generatePathData newText len))) (1 / 2)
  then setLayers (withTextAt (activeLayerId s) newText
                    (- centerX newText len) (- centerY newText len) (layers s))
         (stopLoop s1)
  else setLayers (withText (activeLayerId s) newText (layers s))
         (if 8000 <? length newText then stopLoop s1 else s1).
Proof.
  intros Hseed Hu Hcur. cbv zeta. unfold tick.
  destruct (loopSeedRef s) as [|c0 seed] eqn:Es; [congruence|].
  rewrite Hu. cbn [setLoopIndexRef activeLayerId layers loopSeedRef].
  rewrite Hcur. reflexivity.
Qed.

Lemma tick_idle (s : AppState) : loopSeedRef s = [] -> tick s = s.
Proof. intros H. unfold tick. rewrite H. reflexivity. Qed.

Lemma ticks_idle (n : nat) (s : AppState) : loopSeedRef s = [] -> ticks n s = s.
Proof.
  intros H. induction n as [|n IH]; cbn [ticks]; [reflexivity|].
  rewrite (tick_idle s H). exact IH.
Qed.

(** ** A text that closes *)

Lemma half_turn (a : Z) :
  (IZR (a + 180) * PI / 180 = IZR a * PI / 180 + PI)%R.
Proof. rewrite plus_IZR. field. Qed.

Lemma upright_half (a : Z) :
  upright a ->
  cos (IZR (a + 180) * PI / 180) = (-1)%R /\ sin (IZR (a + 180) * PI / 180) = 0%R.
Proof.
  intros [Hc Hs]. rewrite half_turn, neg_cos, neg_sin, Hc, Hs. split; ring.
Qed.

Lemma upright_full (a : Z) : upright a -> upright (a + 180 + 180).
Proof.
  intros H. destruct (upright_half a H) as [Hc Hs]. unfold upright.
  rewrite (half_turn (a + 180)), neg_cos, neg_sin, Hc, Hs. split; ring.
Qed.

Lemma upright_0 : upright 0.
Proof.
  unfold upright. replace (IZR 0 * PI / 180)%R with 0%R by (unfold Rdiv; ring).
  split; [apply cos_0 | apply sin_0].
Qed.

(** Two letters N from the origin: out by [len] against the x axis and
    back. *)
Lemma NN_step (len : R) (t : Turtle) :
  (0 <= len)%R -> back_at_origin len t ->
  back_at_origin len (body len (body len t [78]) [78]) /\
  min_x (body len (body len t [78]) [78]) = (- len)%R.
Proof.
  intros Hlen (Hx & Hy & Hup & Hmin & Hmax & Hminy & Hmaxy).
  destruct (upright_half _ Hup) as [Hc1 Hs1].
  destruct (upright_full _ Hup) as [Hc2 Hs2].
  rewrite (GeneratorSpec.body_degree len t [78] 180 eq_refl eq_refl).
  rewrite (GeneratorSpec.body_degree len _ [78] 180 eq_refl eq_refl).
  unfold back_at_origin, upright.
  cbn [emit currentX currentY currentAngle min_x max_x min_y max_y
       calculateNextPoint fst snd].
  rewrite Hx, Hy, Hmax, Hminy, Hmaxy, Hc1, Hs1, Hc2, Hs2.
  rewrite !Rmult_0_r, !Rminus_0_r.
  replace (0 + len * -1)%R with (- len)%R by ring.
  replace (- len + len * 1)%R with 0%R by ring.
  rewrite (Rmin_right (min_x t) (- len)) by lra.
  rewrite (Rmin_left (- len) 0) by lra.
  rewrite (Rmax_left 0 (- len)) by lra.
  rewrite !(Rmax_left 0 0), !(Rmin_left 0 0) by lra.
  repeat split; lra.
Qed.

Lemma NN_fold (len : R) (k : nat) :
  (0 <= len)%R ->
  forall t, back_at_origin len t ->
    back_at_origin len (fold_left (body len) (repeat [78] (2 * k)) t) /\
    (min_x t = (- len)%R ->
     min_x (fold_left (body len) (repeat [78] (2 * k)) t) = (- len)%R).
Proof.
  intros Hlen. induction k as [|k IH]; intros t Ht.
  - split; [exact Ht | intros H; exact H].
  - replace (2 * S k)%nat with (S (S (2 * k))) by lia.
    cbn [repeat fold_left].
    destruct (NN_step len t Hlen Ht) as [H2 Hm].
    destruct (IH _ H2) as [H3 H4]. split; [exact H3 | intros _; apply H4, Hm].
Qed.

Lemma iterate_repeat_N (n : nat) : iterate (repeat 78 n) = repeat [78] n.
Proof.
  rewrite GeneratorSpec.iterate_basic_latin, map_repeat; [reflexivity|].
  apply Forall_forall. intros u Hu. apply repeat_spec in Hu. subst u. lia.
Qed.

(** The path of an even, positive number of letters N ends at the origin;
    its box runs from [- len] to 0 along x and is flat along y. *)
Lemma path_of_NN (len : R) (k : nat) :
  (0 <= len)%R ->
  let g := generatePathData (repeat 78 (2 * S k)) len in
  endPoint g = (0%R, 0%R) /\
  minX (bounds g) = (- len)%R /\ maxX (bounds g) = 0%R /\
  minY (bounds g) = 0%R /\ maxY (bounds g) = 0%R /\
  width (bounds g) = len /\ height (bounds g) = 0%R.
Proof.
  intros Hlen. cbv zeta. unfold generatePathData, run.
  rewrite iterate_repeat_N.
  replace (2 * S k)%nat with (S (S (2 * k))) by lia. cbn [repeat fold_left].
  assert (H0 : back_at_origin len start).
  { unfold back_at_origin. cbn [start currentX currentY currentAngle min_x
      max_x min_y max_y].
    repeat split; try reflexivity; try apply upright_0; lra. }
  destruct (NN_step len start Hlen H0) as [H2 Hm].
  destruct (NN_fold len k Hlen _ H2) as [H3 H4]. specialize (H4 Hm).
  destruct H3 as (Hx & Hy & _ & _ & Hmax & Hminy & Hmaxy).
  cbn [endPoint bounds minX maxX minY maxY width height].
  rewrite Hx, Hy, H4, Hmax, Hminy, Hmaxy.
  repeat split; try reflexivity; ring.
Qed.

Lemma euclidean_origin : euclidean (0%R, 0%R) = 0%R.
Proof.
  unfold euclidean. cbn [fst snd].
  replace (0 * 0 + 0 * 0)%R with 0%R by ring. apply sqrt_0.
Qed.

(** The tick on [closing] meets the closure condition. *)
Lemma closing_closed :
  closed (loopSeedRef closing) (Layer.text closing_layer ++ [78])
         (Layer.segmentLength closing_layer).
Proof.
  split; [cbv; reflexivity|].
  change (Layer.text closing_layer ++ [78]) with (repeat 78 (2 * 21)).
  change (Layer.segmentLength closing_layer) with 10%R.
  destruct (path_of_NN 10 20) as (He & _); [lra|].
  rewrite He, euclidean_origin. lra.
Qed.

(** ** The active layer after the update *)

Lemma find_withText (id : string) (newText : jsstring) (ls : list Layer.t)
    (cur : Layer.t) :
  findLayer id ls = Some cur ->
  findLayer id (withText id newText ls) = Some (grown cur newText).
Proof.
  unfold findLayer, withText. induction ls as [|l ls IH]; cbn [find map].
  - discriminate.
  - destruct (String.eqb (Layer.id l) id) eqn:E.
    + intros H. injection H as <-. cbn [Layer.id]. rewrite E. reflexivity.
    + rewrite E. exact IH.
Qed.

Lemma find_withTextAt (id : string) (newText : jsstring) (x y : R)
    (ls : list Layer.t) (cur : Layer.t) :
  findLayer id ls = Some cur ->
  findLayer id (withTextAt id newText x y ls) = Some (moved cur newText x y).
Proof.
  unfold findLayer, withTextAt. induction ls as [|l ls IH]; cbn [find map].
  - discriminate.
  - destruct (String.eqb (Layer.id l) id) eqn:E.
    + intros H. injection H as <-. cbn [Layer.id]. rewrite E. reflexivity.
    + rewrite E. exact IH.
Qed.

(** ** The claims on the loop *)

(** C3.  On a tick that appends a character to the active layer's text
    (the seed is not empty, the layer is found), the character is the one
    of the seed under the cursor and the cursor advances.  If the new text
    is longer than max(4 x seed length, 40) and the endpoint of its path is
    less than 0.5 from the origin, the loop stops and the layer is placed at
    minus the center of the bounding box of the new path.  Otherwise the
    layer keeps its position, and the loop stops if the new text is longer
    than 8000 and goes on if it is not.  The closure stop never happens on
    a new text of 40 units or fewer; for a seed of 2 units the threshold is
    exactly 40. *)
Theorem tick_stop_conditions (s : AppState) (cur : Layer.t) :
  loopSeedRef s <> [] -> 0 <= loopIndexRef s ->
  findLayer (activeLayerId s) (layers s) = Some cur ->
  exists u,
    nth_error (loopSeedRef s)
      (Z.to_nat (loopIndexRef s mod length (loopSeedRef s))) = Some u /\
    let seed := loopSeedRef s in
    let newText := Layer.text cur ++ [u] in
    let len := Layer.segmentLength cur in
    let s' := tick s in
    loopIndexRef s' = loopIndexRef s + 1 /\
    (closed seed newText len ->
       stopped s s' /\
       layers s' = withTextAt (activeLayerId s) newText
                     (- centerX newText len) (- centerY newText len) (layers s) /\
       findLayer (activeLayerId s) (layers s') =
         Some (moved cur newText (- centerX newText len) (- centerY newText len))) /\
    (~ closed seed newText len -> 8000 < length newText ->
       stopped s s' /\
       layers s' = withText (activeLayerId s) newText (layers s) /\
       findLayer (activeLayerId s) (layers s') = Some (grown cur newText)) /\
    (~ closed seed newText len -> length newText <= 8000 ->
       running s s' /\
       layers s' = withText (activeLayerId s) newText (layers s) /\
       findLayer (activeLayerId s) (layers s') = Some (grown cur newText)) /\
    (length newText <= 40 -> ~ closed seed newText len) /\
    (length seed = 2 ->
     (closed seed newText len <->
      40 < length newText /\
      (euclidean (endPoint (generatePathData newText len)) < 1 / 2)%R)).
Proof.
  intros Hseed Hidx Hcur.
  destruct (index_in_range (loopSeedRef s) (loopIndexRef s) Hseed Hidx)
    as (u & Hu & Hn).
  exists u. split; [exact Hn|]. cbv zeta.
  rewrite (tick_appends s cur u Hseed Hu Hcur).
  set (newText := Layer.text cur ++ [u]).
  set (len := Layer.segmentLength cur).
  set (s1 := setLoopIndexRef (loopIndexRef s + 1) s).
  pose proof (closed_test (loopSeedRef s) newText len) as Hc.
  pose proof (stopLoop_stopped s1) as Hstop.
  pose proof (stopLoop_layers s1) as Hlay.
  destruct (stopLoop_cursor s1) as (Hcur1 & _ & _).
  destruct ((Z.max (length (loopSeedRef s) * 4) 40 <? length newText) &&
            Rltb (dist (endPoint (generatePathData newText len))) (1 / 2)) eqn:E.
  - assert (C : closed (loopSeedRef s) newText len) by (apply Hc; reflexivity).
    cbn [setLayers loopIndexRef layers isLooping loopIntervalRef window].
    split; [rewrite Hcur1; reflexivity|].
    split.
    { intros _. split; [|split].
      - destruct Hstop as (H1 & H2 & H3). repeat split; assumption.
      - reflexivity.
      - apply find_withTextAt, Hcur. }
    split; [intros NC; contradiction|].
    split; [intros NC; contradiction|].
    split.
    + intros H40 _. destruct C as [C _]. lia.
    + intros H2. unfold closed. rewrite H2. reflexivity.
  - assert (NC : ~ closed (loopSeedRef s) newText len).
    { intros C. apply Hc in C. congruence. }
    split.
    { destruct (8000 <? length newText); cbn [setLayers loopIndexRef];
        [rewrite Hcur1|]; reflexivity. }
    split; [intros C; contradiction|].
    split.
    { intros _ H8. apply Z.ltb_lt in H8. rewrite H8.
      split; [|split].
      - destruct Hstop as (H1 & H2 & H3). repeat split; assumption.
      - reflexivity.
      - apply find_withText, Hcur. }
    split.
    { intros _ H8. apply Z.ltb_ge in H8. rewrite H8.
      split; [|split].
      - repeat split; reflexivity.
      - reflexivity.
      - apply find_withText, Hcur. }
    split.
    + intros _. exact NC.
    + intros H2. unfold closed. rewrite H2. reflexivity.
Qed.

Lemma tick_stop_conditions_witness :
  isLooping closing = true /\ In 1 (scheduled (window closing)) /\
  isLooping (tick closing) = false /\
  ~ In 1 (scheduled (window (tick closing))) /\
  loopIndexRef (tick closing) = 41 /\
  exists l,
    findLayer "1" (layers (tick closing)) = Some l /\
    Layer.text l = repeat 78 42 /\ Layer.x l = 5%R /\ Layer.y l = 0%R.
Proof.
  destruct (tick_stop_conditions closing closing_layer)
    as (u & Hu & Hi & Hc & _).
  - cbn. discriminate.
  - cbn. lia.
  - reflexivity.
  - assert (u = 78) by (cbv in Hu; congruence). subst u.
    destruct (Hc closing_closed) as ((H1 & H2 & H3) & _ & Hf).
    split; [reflexivity|]. split; [left; reflexivity|].
    split; [exact H1|]. split; [apply H3; reflexivity|].
    split; [exact Hi|].
    eexists. split; [exact Hf|]. split; [reflexivity|].
    unfold moved, centerX, centerY. cbn [Layer.x Layer.y].
    change (Layer.text closing_layer ++ [78]) with (repeat 78 (2 * 21)).
    change (Layer.segmentLength closing_layer) with 10%R.
    destruct (path_of_NN 10 20) as (_ & Hx0 & _ & Hy0 & _ & Hw & Hh); [lra|].
    rewrite Hx0, Hy0, Hw, Hh. split; lra.
Defined.

(** C6.  Starting a loop while the active layer's text is empty is refused
    with no state change.  The start operation is the click on "Play Loop",
    which is all that calls [startLoop]; on an empty text the button is
    disabled, so the click leaves the whole state as it is: the looping
    flag, the cursor, the seed, the layers, the interval handle and the
    timers of the window.  No timer-driven append ever occurs: the click
    schedules no interval, and the interval callback itself returns at once
    on an empty seed, whatever the number of firings. *)
Theorem empty_seed_is_refused (s : AppState) (a : Layer.t) :
  activeLayer s = Some a -> Layer.text a = [] ->
  playLoopClick s = s /\
  isLooping (playLoopClick s) = isLooping s /\
  loopIndexRef (playLoopClick s) = loopIndexRef s /\
  loopSeedRef (playLoopClick s) = loopSeedRef s /\
  layers (playLoopClick s) = layers s /\
  loopIntervalRef (playLoopClick s) = loopIntervalRef s /\
  scheduled (window (playLoopClick s)) = scheduled (window s) /\
  forall t n, loopSeedRef t = [] -> layers (ticks n t) = layers t.
Proof.
  intros Ha Ht.
  assert (H : playLoopClick s = s).
  { unfold playLoopClick. rewrite Ha, Ht. destruct (isLooping s); reflexivity. }
  rewrite H. repeat split; try reflexivity.
  intros t n Hseed. rewrite (ticks_idle n t Hseed). reflexivity.
Qed.

Lemma empty_seed_is_refused_witness :
  playLoopClick blank = blank /\
  isLooping (playLoopClick blank) = false /\
  layers (ticks 100 (playLoopClick blank)) = layers blank.
Proof.
  destruct (empty_seed_is_refused blank
              (Layer.mk "1" "Base Layer" [] "#1e293b" 0 0 false true
                 DEFAULT_SEGMENT_LENGTH))
    as (H1 & _ & _ & _ & _ & _ & _ & H2).
  - reflexivity.
  - reflexivity.
  - split; [exact H1|]. rewrite H1. split; [reflexivity|].
    apply (H2 blank 100%nat). reflexivity.
Defined.

End LoopSpec.

(* ================================================================== *)
(** * Further properties of the path generator *)
(* ================================================================== *)

Module GeneratorFacts.

Import JS Types CircularSystem Spec GeneratorSpec.
Local Open Scope Z_scope.

(** ** Invariants over emitted characters *)

(** As [Invariant], for properties that need the character pushed to be one
    the loop body draws, with its own space flag. *)
Section EmittedInvariant.

Variable len : R.
Variable P : Turtle -> Prop.
Hypothesis P_start : P start.
Hypothesis P_emit :
  forall t c a,
    emits c = true -> P t -> P (emit len t c (is_space c) a).

Lemma fold_emitted_invariant (cs : list jsstring) :
  forall t, P t -> P (fold_left (body len) cs t).
Proof.
  induction cs as [|c cs IH]; intros t H; cbn [fold_left]; [exact H|].
  apply IH. destruct (emits c) eqn:E.
  - destruct (body_emit len t c E) as [a ->]. apply P_emit; assumption.
  - rewrite (body_skip len t c E). exact H.
Qed.

Lemma run_emitted_invariant (text : jsstring) : P (run text len).
Proof. apply fold_emitted_invariant, P_start. Qed.

End EmittedInvariant.

Lemma emits_not_empty (c : jsstring) : emits c = true -> c <> [].
Proof. intros H ->. discriminate. Qed.

(** ** Every point lies in the bounds *)

Lemma least_le_first (l : list R) (a : R) : (fold_left Rmin l a <= a)%R.
Proof.
  revert a. induction l as [|b l IH]; intros a; cbn [fold_left]; [lra|].
  eapply Rle_trans; [apply IH | apply Rmin_l].
Qed.

Lemma least_le_each (l : list R) (a b : R) :
  In b l -> (fold_left Rmin l a <= b)%R.
Proof.
  revert a. induction l as [|c l IH]; intros a Hb; [destruct Hb|].
  cbn [fold_left]. destruct Hb as [->|Hb].
  - eapply Rle_trans; [apply least_le_first | apply Rmin_r].
  - apply IH, Hb.
Qed.

Lemma greatest_ge_first (l : list R) (a : R) : (a <= fold_left Rmax l a)%R.
Proof.
  revert a. induction l as [|b l IH]; intros a; cbn [fold_left]; [lra|].
  eapply Rle_trans; [apply Rmax_l | apply IH].
Qed.

Lemma greatest_ge_each (l : list R) (a b : R) :
  In b l -> (b <= fold_left Rmax l a)%R.
Proof.
  revert a. induction l as [|c l IH]; intros a Hb; [destruct Hb|].
  cbn [fold_left]. destruct Hb as [->|Hb].
  - eapply Rle_trans; [apply Rmax_r | apply greatest_ge_first].
  - apply IH, Hb.
Qed.

Lemma least_le (f : Point.t -> R) (p : Point.t) (ps : list Point.t) (q : Point.t) :
  In q (p :: ps) -> (least f p ps <= f q)%R.
Proof.
  unfold least. intros [->|H].
  - apply least_le_first.
  - apply least_le_each, in_map, H.
Qed.

Lemma greatest_ge (f : Point.t -> R) (p : Point.t) (ps : list Point.t) (q : Point.t) :
  In q (p :: ps) -> (f q <= greatest f p ps)%R.
Proof.
  unfold greatest. intros [->|H].
  - apply greatest_ge_first.
  - apply greatest_ge_each, in_map, H.
Qed.

(** The same, with the inequalities written out. *)
Lemma points_inside_bounds_of (text : jsstring) (len : R) (p : Point.t) :
  In p (points (generatePathData text len)) ->
  (minX (bounds (generatePathData text len)) <= Point.x p <=
   maxX (bounds (generatePathData text len)) /\
   minY (bounds (generatePathData text len)) <= Point.y p <=
   maxY (bounds (generatePathData text len)))%R.
Proof.
  unfold generatePathData. cbn [points bounds]. intros Hp.
  destruct (run_boxed text len) as (p0 & ps & Hps & H1 & H2 & H3 & H4).
  rewrite Hps in Hp. cbn [minX maxX minY maxY].
  rewrite H1, H2, H3, H4.
  repeat split; (apply least_le || apply greatest_ge); exact Hp.
Qed.

(** X1.  Every point of a generated path, the start point included, lies in
    the bounds returned with it. *)
Theorem points_inside_bounds (text : jsstring) (len : R) (p : Point.t) :
  In p (points (generatePathData text len)) ->
  inside (bounds (generatePathData text len)) p.
Proof.
  unfold generatePathData. cbn [points bounds]. intros Hp.
  destruct (run_boxed text len) as (p0 & ps & Hps & H1 & H2 & H3 & H4).
  rewrite Hps in Hp. unfold inside. cbn [minX maxX minY maxY].
  rewrite H1, H2, H3, H4.
  repeat split; (apply least_le || apply greatest_ge); exact Hp.
Qed.

Lemma points_inside_bounds_witness :
  inside (bounds (generatePathData (of_string "A") 10))
         (Point.mk 0 0 [] 0 false).
Proof.
  apply (points_inside_bounds (of_string "A") 10).
  unfold generatePathData. cbn [points]. rewrite run_A.
  cbn [emit calculatedPoints start app]. left. reflexivity.
Defined.

(** ** The end point, the commands and the segments *)

(** The last point pushed is where the turtle stands. *)
Definition tail_is_current (t : Turtle) : Prop :=
  calculatedPoints t <> [] /\
  forall d,
    Point.x (last (calculatedPoints t) d) = currentX t /\
    Point.y (last (calculatedPoints t) d) = currentY t /\
    Point.angle (last (calculatedPoints t) d) = currentAngle t.

Lemma run_tail_is_current (text : jsstring) (len : R) :
  tail_is_current (run text len).
Proof.
  apply run_invariant.
  - split; [discriminate|]. intros d. repeat split; reflexivity.
  - intros l t c sp a _. unfold tail_is_current.
    cbn [emit calculatedPoints currentX currentY currentAngle].
    split; [intros H; apply app_eq_nil in H as [_ H]; discriminate|].
    intros d. rewrite last_last. repeat split; reflexivity.
Qed.

(** X2.  The end point returned with a path is the position of its last
    point, and the heading recorded there is the final heading: the sum of
    the angles of the letters drawn. *)
Theorem endPoint_is_last_point (text : jsstring) (len : R) (d : Point.t) :
  let g := generatePathData text len in
  endPoint g = (Point.x (last (points g) d), Point.y (last (points g) d)) /\
  Point.angle (last (points g) d) =
    fold_left Z.add
      (map (fun c => match getDegreeForChar c with Some a => a | None => 0 end)
           (filter (fun c => negb (is_space c)) (iterate text))) 0.
Proof.
  cbv zeta. unfold generatePathData. cbn [endPoint points].
  destruct (run_tail_is_current text len) as [_ H].
  destruct (H d) as (Hx & Hy & Ha). rewrite Hx, Hy, Ha. split; [reflexivity|].
  unfold run. change 0 with (currentAngle start) at 2.
  generalize start. induction (iterate text) as [|c cs IH]; intros t.
  - reflexivity.
  - cbn [fold_left filter]. rewrite IH. unfold body.
    destruct (is_space c); cbn [negb map fold_left].
    + reflexivity.
    + destruct (getDegreeForChar c); cbn [emit currentAngle];
        [reflexivity | rewrite Z.add_0_r; reflexivity].
Qed.

(** X3.  The path descriptor holds one command per point, in order and at
    the point's coordinates: a move for the start point and for every
    space, a line for every letter. *)
Theorem pathData_follows_points (text : jsstring) (len : R) :
  pathData (generatePathData text len) =
  map command_of (points (generatePathData text len)).
Proof.
  unfold generatePathData. cbn [pathData points].
  apply (run_emitted_invariant len
           (fun t => pathD t = map command_of (calculatedPoints t))).
  - reflexivity.
  - intros t c a Hc Ht. cbn [emit pathD calculatedPoints].
    rewrite map_app, <- Ht. cbn [map]. unfold command_of. cbn [Point.char
      Point.isSpace Point.x Point.y].
    destruct c as [|u c]; [discriminate|].
    destruct (is_space (u :: c)); reflexivity.
Qed.

Lemma segments_snoc (l : list Point.t) (q d : Point.t) :
  l <> [] -> segments (l ++ [q]) = segments l ++ [(last l d, q)].
Proof.
  induction l as [|p l IH]; [congruence|]. intros _.
  destruct l as [|p' l]; [reflexivity|].
  change (segments ((p :: p' :: l) ++ [q]))
    with ((p, p') :: segments ((p' :: l) ++ [q])).
  rewrite IH by discriminate. reflexivity.
Qed.

Lemma step_length (x y : R) (a : Z) (len : R) :
  let n := calculateNextPoint x y a len in
  ((fst n - x) * (fst n - x) + (snd n - y) * (snd n - y) = len * len)%R.
Proof.
  cbv zeta. unfold calculateNextPoint. cbn [fst snd].
  pose proof (sin2_cos2 (IZR a * PI / 180)) as H. unfold Rsqr in H.
  set (c := cos (IZR a * PI / 180)) in *. set (s := sin (IZR a * PI / 180)) in *.
  replace ((x + len * c - x) * (x + len * c - x) +
           (y - len * s - y) * (y - len * s - y))%R
    with (len * len * (s * s + c * c))%R by ring.
  rewrite H. ring.
Qed.

(** X4.  Any two neighbouring points of a generated path lie exactly
    [segmentLength] apart, across a space as along a letter. *)
Theorem segments_have_segment_length (text : jsstring) (len : R) :
  Forall (fun pq => sq_dist (fst pq) (snd pq) = (len * len)%R)
         (segments (points (generatePathData text len))).
Proof.
  unfold generatePathData. cbn [points].
  apply (run_emitted_invariant len
           (fun t => tail_is_current t /\
                     Forall (fun pq => sq_dist (fst pq) (snd pq) = (len * len)%R)
                            (segments (calculatedPoints t)))).
  - split; [|constructor]. split; [discriminate|].
    intros d. repeat split; reflexivity.
  - intros t c a _ [[Hne Hlast] Hseg]. split.
    + unfold tail_is_current.
      cbn [emit calculatedPoints currentX currentY currentAngle].
      split; [intros H; apply app_eq_nil in H as [_ H]; discriminate|].
      intros d. rewrite last_last. repeat split; reflexivity.
    + cbn [emit calculatedPoints].
      rewrite (segments_snoc _ _ (Point.mk 0 0 [] 0 false) Hne).
      apply Forall_app. split; [exact Hseg|]. constructor; [|constructor].
      cbn [fst snd]. unfold sq_dist. cbn [Point.x Point.y].
      destruct (Hlast (Point.mk 0 0 [] 0 false)) as (-> & -> & _).
      apply step_length.
Qed.

(** ** Characters that do not count *)

Lemma fold_skips (len : R) (cs : list jsstring) :
  forall t, fold_left (body len) cs t = fold_left (body len) (filter emits cs) t.
Proof.
  induction cs as [|c cs IH]; intros t; [reflexivity|].
  cbn [fold_left filter]. destruct (emits c) eqn:E.
  - cbn [fold_left]. apply IH.
  - rewrite (body_skip len t c E). apply IH.
Qed.

(** X5.  The characters that are neither a space nor given an angle have no
    effect at all: two texts with the same spaces and drawn characters, in
    the same order, get the same path, points, end point and bounds. *)
Theorem skipped_characters_leave_no_trace (text text' : jsstring) (len : R) :
  filter emits (iterate text) = filter emits (iterate text') ->
  generatePathData text len = generatePathData text' len.
Proof.
  intros H. unfold generatePathData, run.
  rewrite (fold_skips len (iterate text)), (fold_skips len (iterate text')), H.
  reflexivity.
Qed.

Lemma skipped_characters_leave_no_trace_witness :
  generatePathData (of_string "a-b, 2c!") 10 =
  generatePathData (of_string "ab c") 10.
Proof.
  apply (skipped_characters_leave_no_trace
           (of_string "a-b, 2c!") (of_string "ab c") 10).
  reflexivity.
Defined.

(** ** Case *)

Lemma shape_fields (t t' : Turtle) :
  shape t = shape t' ->
  currentX t = currentX t' /\ currentY t = currentY t' /\
  currentAngle t = currentAngle t' /\ pathD t = pathD t' /\
  min_x t = min_x t' /\ max_x t = max_x t' /\
  min_y t = min_y t' /\ max_y t = max_y t' /\
  map place (calculatedPoints t) = map place (calculatedPoints t').
Proof. unfold shape. intros H. repeat split; congruence. Qed.

Lemma emit_shape (len : R) (t t' : Turtle) (c c' : jsstring) (sp : bool) (a : Z) :
  shape t = shape t' ->
  shape (emit len t c sp a) = shape (emit len t' c' sp a).
Proof.
  intros H.
  destruct (shape_fields t t' H) as (H1 & H2 & H3 & H4 & H5 & H6 & H7 & H8 & H9).
  unfold shape.
  cbn [emit currentX currentY currentAngle pathD min_x max_x min_y max_y
       calculatedPoints].
  rewrite !map_app, H1, H2, H4, H5, H6, H7, H8, H9. reflexivity.
Qed.

Lemma body_shape (len : R) (t t' : Turtle) (c c' : jsstring) :
  shape t = shape t' -> alike c c' ->
  shape (body len t c) = shape (body len t' c').
Proof.
  intros H [Hs Hd]. unfold body. rewrite <- Hs, <- Hd.
  assert (Ha : currentAngle t = currentAngle t') by apply (shape_fields t t' H).
  rewrite <- Ha.
  destruct (is_space c); cbn [negb].
  - apply emit_shape, H.
  - destruct (getDegreeForChar c); [apply emit_shape, H | exact H].
Qed.

Lemma fold_shape (len : R) (cs cs' : list jsstring) :
  Forall2 alike cs cs' ->
  forall t t', shape t = shape t' ->
  shape (fold_left (body len) cs t) = shape (fold_left (body len) cs' t').
Proof.
  induction 1 as [|c c' cs cs' Hc _ IH]; intros t t' H; [exact H|].
  cbn [fold_left]. apply IH, body_shape; assumption.
Qed.

(** Upper-casing one unit of Basic Latin gives one unit of Basic Latin that
    the loop body treats the same way. *)
Lemma upper_unit_basic_latin (u : Z) :
  0 <= u <= 127 ->
  exists v, upper_unit u = [v] /\ 0 <= v <= 127 /\ alike [u] [v].
Proof.
  intros Hu.
  assert (H : forallb
                (fun w => match upper_unit w with
                          | [v] => (0 <=? v) && (v <=? 127) &&
                                   Bool.eqb (is_space [w]) (is_space [v]) &&
                                   same_degree (getDegreeForChar [w])
                                               (getDegreeForChar [v])
                          | _ => false
                          end)
                (map Z.of_nat (seq 0 128)) = true) by (vm_compute; reflexivity).
  rewrite forallb_forall in H.
  specialize (H u). cbv beta in H.
  destruct (upper_unit u) as [|v [|? ?]];
    try (exfalso; assert (false = true) by
           (apply H, in_map_iff; exists (Z.to_nat u);
            split; [lia | apply in_seq; lia]); discriminate).
  assert (Hv : (0 <=? v) && (v <=? 127) &&
               Bool.eqb (is_space [u]) (is_space [v]) &&
               same_degree (getDegreeForChar [u]) (getDegreeForChar [v]) = true).
  { apply H, in_map_iff. exists (Z.to_nat u).
    split; [lia | apply in_seq; lia]. }
  apply andb_true_iff in Hv as [Hv Hd].
  apply andb_true_iff in Hv as [Hv Hs].
  apply andb_true_iff in Hv as [H0 H1].
  apply Z.leb_le in H0, H1. apply eqb_prop in Hs.
  exists v. split; [reflexivity|]. split; [lia|]. split; [exact Hs|].
  unfold same_degree in Hd.
  destruct (getDegreeForChar [u]), (getDegreeForChar [v]);
    try discriminate; [apply Z.eqb_eq in Hd; subst|]; reflexivity.
Qed.

Lemma toUpperCase_basic_latin (text : jsstring) :
  basic_latin text ->
  basic_latin (toUpperCase text) /\
  Forall2 alike (iterate text) (iterate (toUpperCase text)).
Proof.
  induction 1 as [|u text Hu Ht [IHb IHa]].
  - split; constructor.
  - assert (Hhigh : forall w, 0 <= w <= 127 -> is_high_surrogate w = false).
    { intros w Hw. unfold is_high_surrogate. apply andb_false_iff.
      left. apply Z.leb_gt. lia. }
    destruct (upper_unit_basic_latin u Hu) as (v & Hv & Hr & Hal).
    assert (E : toUpperCase (u :: text) = v :: toUpperCase text).
    { unfold toUpperCase. rewrite iterate_cons by (apply Hhigh, Hu).
      cbn [flat_map upper_point]. rewrite Hv. reflexivity. }
    rewrite E. split; [constructor; assumption|].
    rewrite !iterate_cons by (apply Hhigh; assumption).
    constructor; assumption.
Qed.

(** X6.  On a text of Basic Latin the geometry does not depend on the case
    of the letters: the text and its upper-cased form get the same path
    descriptor, bounds and end point, and points that differ only in the
    character they record. *)
Theorem geometry_ignores_case (text : jsstring) (len : R) :
  basic_latin text ->
  let g := generatePathData text len in
  let g' := generatePathData (toUpperCase text) len in
  pathData g' = pathData g /\ bounds g' = bounds g /\
  endPoint g' = endPoint g /\
  map place (points g') = map place (points g).
Proof.
  intros Hb. cbv zeta.
  destruct (toUpperCase_basic_latin text Hb) as [_ Ha].
  pose proof (fold_shape len _ _ Ha start start eq_refl) as H.
  fold (run text len) (run (toUpperCase text) len) in H.
  destruct (shape_fields _ _ H) as (H1 & H2 & H3 & H4 & H5 & H6 & H7 & H8 & H9).
  unfold generatePathData. cbn [pathData bounds endPoint points].
  rewrite <- H1, <- H2, <- H4, <- H5, <- H6, <- H7, <- H8, <- H9.
  repeat split; reflexivity.
Qed.

Lemma geometry_ignores_case_witness :
  bounds (generatePathData (of_string "HELLO WORLD") 10) =
  bounds (generatePathData (of_string "Hello World") 10).
Proof.
  apply (geometry_ignores_case (of_string "Hello World") 10).
  apply Forall_forall. intros u Hu. cbv in Hu.
  repeat (destruct Hu as [<-|Hu]; [lia|]). destruct Hu.
Defined.

(** ** Segment length as a scale *)

Lemma Rmin_scale (k a b : R) : (0 <= k)%R -> Rmin (k * a) (k * b) = (k * Rmin a b)%R.
Proof.
  intros Hk. unfold Rmin.
  destruct (Rle_dec (k * a) (k * b)), (Rle_dec a b); try reflexivity; nra.
Qed.

Lemma Rmax_scale (k a b : R) : (0 <= k)%R -> Rmax (k * a) (k * b) = (k * Rmax a b)%R.
Proof.
  intros Hk. unfold Rmax.
  destruct (Rle_dec (k * a) (k * b)), (Rle_dec a b); try reflexivity; nra.
Qed.

Lemma next_point_scale (k x y : R) (a : Z) (len : R) :
  calculateNextPoint (k * x) (k * y) a (k * len) =
  ((k * fst (calculateNextPoint x y a len))%R,
   (k * snd (calculateNextPoint x y a len))%R).
Proof. unfold calculateNextPoint. cbn [fst snd]. f_equal; ring. Qed.

Lemma emit_magnified (k len : R) (t t' : Turtle) (c : jsstring) (sp : bool) (a : Z) :
  (0 <= k)%R -> magnified k t t' ->
  magnified k (emit len t c sp a) (emit (k * len) t' c sp a).
Proof.
  intros Hk (Hx & Hy & Ha & H1 & H2 & H3 & H4 & Hp).
  unfold magnified.
  cbn [emit currentX currentY currentAngle min_x max_x min_y max_y calculatedPoints].
  rewrite Hx, Hy, H1, H2, H3, H4, next_point_scale. cbn [fst snd].
  rewrite !Rmin_scale, !Rmax_scale by exact Hk.
  rewrite !map_app, Hp. cbn [map Point.x Point.y].
  repeat split; reflexivity.
Qed.

Lemma fold_magnified (k len : R) (cs : list jsstring) :
  (0 <= k)%R ->
  forall t t', magnified k t t' ->
  magnified k (fold_left (body len) cs t) (fold_left (body (k * len)) cs t').
Proof.
  intros Hk. induction cs as [|c cs IH]; intros t t' H; [exact H|].
  cbn [fold_left]. apply IH. unfold body.
  assert (Ha : currentAngle t' = currentAngle t) by apply H.
  rewrite Ha.
  destruct (negb (is_space c)).
  - destruct (getDegreeForChar c); [apply emit_magnified; assumption | exact H].
  - apply emit_magnified; assumption.
Qed.

(** X7.  The segment length is a pure scale: multiplying it by [k >= 0]
    multiplies the coordinates of every point, the end point and the six
    numbers of the bounds by [k]. *)
Theorem segment_length_scales_the_path (text : jsstring) (k len : R) :
  (0 <= k)%R ->
  let g := generatePathData text len in
  let g' := generatePathData text (k * len) in
  endPoint g' = ((k * fst (endPoint g))%R, (k * snd (endPoint g))%R) /\
  minX (bounds g') = (k * minX (bounds g))%R /\
  maxX (bounds g') = (k * maxX (bounds g))%R /\
  minY (bounds g') = (k * minY (bounds g))%R /\
  maxY (bounds g') = (k * maxY (bounds g))%R /\
  width (bounds g') = (k * width (bounds g))%R /\
  height (bounds g') = (k * height (bounds g))%R /\
  map (fun p => (Point.x p, Point.y p)) (points g') =
  map (fun p => ((k * Point.x p)%R, (k * Point.y p)%R)) (points g).
Proof.
  intros Hk. cbv zeta.
  assert (H0 : magnified k start start).
  { unfold magnified. cbn [start currentX currentY currentAngle min_x max_x
      min_y max_y calculatedPoints map Point.x Point.y].
    rewrite Rmult_0_r. repeat split; reflexivity. }
  pose proof (fold_magnified k len (iterate text) Hk start start H0) as H.
  fold (run text len) (run text (k * len)) in H.
  destruct H as (Hx & Hy & Ha & H1 & H2 & H3 & H4 & Hp).
  unfold generatePathData.
  cbn [endPoint bounds points minX maxX minY maxY width height fst snd].
  rewrite Hx, Hy, H1, H2, H3, H4, Hp.
  repeat split; try reflexivity; ring.
Qed.

Lemma segment_length_scales_the_path_witness :
  endPoint (generatePathData (of_string "Hello World") (3 * 10)) =
  ((3 * fst (endPoint (generatePathData (of_string "Hello World") 10)))%R,
   (3 * snd (endPoint (generatePathData (of_string "Hello World") 10)))%R).
Proof.
  apply (segment_length_scales_the_path (of_string "Hello World") 3 10). lra.
Defined.

(** ** Basic Latin *)

(** X8.  On a text of Basic Latin (code units 0 to 127) the points are the
    start point and one point for each space and each letter A-Z or a-z,
    and nothing else: digits, punctuation and control characters are
    skipped; the path descriptor has as many commands. *)
Theorem count_on_basic_latin (text : jsstring) (len : R) :
  basic_latin text ->
  List.length (points (generatePathData text len)) = S (count_valid text) /\
  List.length (pathData (generatePathData text len)) = S (count_valid text) /\
  Forall (fun c => emits c = valid_char c) (iterate text).
Proof.
  intros H.
  assert (Hp : List.length (points (generatePathData text len)) =
               S (count_valid text)) by apply points_count_basic_latin, H.
  split; [exact Hp|]. split.
  - assert (Hd : pathData (generatePathData text len) =
                 map command_of (points (generatePathData text len))).
    { unfold generatePathData. cbn [pathData points].
      apply (run_emitted_invariant len
               (fun t => pathD t = map command_of (calculatedPoints t))).
      - reflexivity.
      - intros t c a Hc Ht. cbn [emit pathD calculatedPoints].
        rewrite map_app, <- Ht. cbn [map]. unfold command_of.
        cbn [Point.char Point.isSpace Point.x Point.y].
        destruct c as [|u c]; [discriminate|].
        destruct (is_space (u :: c)); reflexivity. }
    rewrite Hd, length_map. exact Hp.
  - rewrite (iterate_basic_latin text H). apply Forall_map.
    eapply Forall_impl; [|exact H]. cbv beta. apply emits_basic_latin.
Qed.

Lemma count_on_basic_latin_witness :
  List.length (points (generatePathData (of_string "Hi, 2 all!") 10)) =
  S (count_valid (of_string "Hi, 2 all!")).
Proof.
  apply (count_on_basic_latin (of_string "Hi, 2 all!") 10).
  apply Forall_forall. intros u Hu. cbv in Hu.
  repeat (destruct Hu as [<-|Hu]; [lia|]). destruct Hu.
Defined.

(** X9.  Whatever the character, an angle that [getDegreeForChar] returns is
    the angle of one of the 26 letters, a whole number of degrees from 0 to
    346. *)
Theorem degree_is_a_letter_angle (char : jsstring) (d : Z) :
  getDegreeForChar char = Some d ->
  0 <= d <= 346 /\ exists i, 0 <= i <= 25 /\ d = angle i.
Proof.
  unfold getDegreeForChar.
  destruct (charCodeAt0 (toUpperCase char)) as [code|]; [|discriminate].
  destruct ((65 <=? code) && (code <=? 90)) eqn:E; [|discriminate].
  apply andb_true_iff in E as [E1 E2]. apply Z.leb_le in E1, E2.
  pose proof (AlphabetSpec.degree_upper_code code (conj E1 E2)) as Hc.
  assert (Hu : charCodeAt0 (toUpperCase [code]) = Some code).
  { revert Hc. unfold getDegreeForChar.
    assert (T : forallb (fun i => match charCodeAt0 (toUpperCase [65 + i]) with
                                  | Some c => c =? 65 + i
                                  | None => false
                                  end) indices = true) by (vm_compute; reflexivity).
    rewrite forallb_forall in T.
    specialize (T (code - 65) (AlphabetSpec.in_indices (code - 65) ltac:(lia))).
    replace (65 + (code - 65)) with code in T by lia.
    destruct (charCodeAt0 (toUpperCase [code])) as [c|]; [|discriminate].
    apply Z.eqb_eq in T. subst c. reflexivity. }
  unfold getDegreeForChar in Hc. rewrite Hu in Hc.
  replace ((65 <=? code) && (code <=? 90)) with true in Hc
    by (symmetry; apply andb_true_iff; split; apply Z.leb_le; lia).
  rewrite Hc. intros H. injection H as <-.
  split.
  - assert (T : forallb (fun i => (0 <=? angle i) && (angle i <=? 346)) indices = true)
      by (vm_compute; reflexivity).
    rewrite forallb_forall in T.
    specialize (T (code - 65) (AlphabetSpec.in_indices (code - 65) ltac:(lia))).
    apply andb_true_iff in T as [T1 T2]. apply Z.leb_le in T1, T2. lia.
  - exists (code - 65). split; [lia | reflexivity].
Qed.

Lemma degree_is_a_letter_angle_witness :
  0 <= 249 <= 346 /\ exists i, 0 <= i <= 25 /\ 249 = angle i.
Proof. apply (degree_is_a_letter_angle [223] 249). reflexivity. Defined.

(** ** Appending a character *)

(** X10.  Appending a character to a text never changes the path drawn so
    far: the points of the longer text are those of the shorter one,
    followed by one new point if the character is a space or has an angle
    and by nothing otherwise, and the path descriptor grows by the command
    of that point. *)
Theorem appending_extends_the_path (text : jsstring) (u : Z) (len : R) :
  is_low_surrogate u = false ->
  let g := generatePathData text len in
  let g' := generatePathData (text ++ [u]) len in
  exists rest,
    points g' = points g ++ rest /\
    pathData g' = pathData g ++ map command_of rest /\
    (emits [u] = false -> rest = [] /\ g' = g) /\
    (emits [u] = true ->
     exists p, rest = [p] /\ Point.char p = [u] /\
               Point.isSpace p = is_space [u] /\
               (Point.x p, Point.y p) = endPoint g').
Proof.
  intros Hu. cbv zeta.
  assert (Hrun : run (text ++ [u]) len = body len (run text len) [u]).
  { unfold run. rewrite iterate_app by exact Hu.
    rewrite fold_left_app. reflexivity. }
  unfold generatePathData. cbn [points pathData endPoint]. rewrite Hrun.
  destruct (emits [u]) eqn:E.
  - destruct (body_emit len (run text len) [u] E) as [a Ha]. rewrite Ha.
    cbn [emit calculatedPoints pathD currentX currentY].
    eexists. split; [reflexivity|]. split.
    + cbn [map]. unfold command_of. cbn [Point.char Point.isSpace Point.x Point.y].
      destruct (is_space [u]); reflexivity.
    + split; [discriminate|]. intros _. eexists. split; [reflexivity|].
      repeat split; reflexivity.
  - rewrite (body_skip len (run text len) [u] E).
    exists []. rewrite !app_nil_r. split; [reflexivity|]. split; [reflexivity|].
    split; [intros _; split; reflexivity | discriminate].
Qed.

Lemma appending_extends_the_path_witness :
  exists rest,
    points (generatePathData (of_string "AB" ++ [67]) 10) =
    points (generatePathData (of_string "AB") 10) ++ rest.
Proof.
  destruct (appending_extends_the_path (of_string "AB") 67 10) as (rest & H & _).
  - reflexivity.
  - exists rest. exact H.
Defined.

End GeneratorFacts.

(* ================================================================== *)
(** * Further properties of the camera *)
(* ================================================================== *)

Module CanvasFacts.

Import Types CurveCanvas Spec Spec.Camera.
Local Open Scope R_scope.

(** ** Content bounds *)

Lemma holds_refl (e : R * R * R * R) : holds e e.
Proof. destruct e as [[[a b] c] d]. cbn. lra. Qed.

Lemma holds_trans (e f g : R * R * R * R) : holds e f -> holds f g -> holds e g.
Proof.
  destruct e as [[[a b] c] d], f as [[[a' b'] c'] d'], g as [[[a'' b''] c''] d''].
  cbn. lra.
Qed.

Lemma accumulate_holds (acc : Extent) (q : Prepared) :
  exists e, accumulate acc (Some q) = Some e /\
            holds e (drawn_extent q) /\
            (forall a, acc = Some a -> holds e a) /\
            (ordered (drawn_extent q) -> (forall a, acc = Some a -> ordered a) ->
             ordered e).
Proof.
  unfold accumulate, drawn_extent. destruct acc as [[[[x0 x1] y0] y1]|].
  - eexists. split; [reflexivity|]. cbn [holds ordered]. repeat split.
    + apply Rmin_r.
    + apply Rmax_r.
    + apply Rmin_r.
    + apply Rmax_r.
    + intros a Ha. injection Ha as <-. cbn.
      repeat split; (apply Rmin_l || apply Rmax_l).
    + destruct H as [H _]. destruct (H0 _ eq_refl) as [H1 _].
      eapply Rle_trans; [apply Rmin_l|]. eapply Rle_trans; [exact H1 | apply Rmax_l].
    + destruct H as [_ H]. destruct (H0 _ eq_refl) as [_ H1].
      eapply Rle_trans; [apply Rmin_l|]. eapply Rle_trans; [exact H1 | apply Rmax_l].
  - eexists. split; [reflexivity|]. split; [apply holds_refl|].
    split; [intros a Ha; discriminate|]. intros H _. exact H.
Qed.

(** What the fold of [contentBounds] keeps: an extent once there is one,
    holding what it held and every entry folded in, and not inverted if
    no entry is. *)
Lemma fold_accumulate (es : list (option Prepared)) :
  forall acc,
    (forall a, acc = Some a ->
       exists e, fold_left accumulate es acc = Some e /\ holds e a) /\
    (forall q, In (Some q) es ->
       exists e, fold_left accumulate es acc = Some e /\ holds e (drawn_extent q)) /\
    ((forall q, In (Some q) es -> ordered (drawn_extent q)) ->
     (forall a, acc = Some a -> ordered a) ->
     forall e, fold_left accumulate es acc = Some e -> ordered e) /\
    (acc = None -> (forall q, ~ In (Some q) es) ->
     fold_left accumulate es acc = None).
Proof.
  induction es as [|[q|] es IH]; intros acc.
  - cbn [fold_left]. repeat split.
    + intros a ->. exists a. split; [reflexivity | apply holds_refl].
    + intros q [].
    + intros _ Ha e He. apply Ha, He.
    + intros -> _. reflexivity.
  - cbn [fold_left].
    destruct (accumulate_holds acc q) as (e & He & Hq & Hacc & Hord).
    destruct (IH (accumulate acc (Some q))) as (I1 & I2 & I3 & _).
    repeat split.
    + intros a Ha. destruct (I1 e He) as (f & Hf & Hfe).
      exists f. split; [exact Hf|]. eapply holds_trans; [exact Hfe | apply Hacc, Ha].
    + intros q' [Hq'|Hq'].
      * injection Hq' as <-. destruct (I1 e He) as (f & Hf & Hfe).
        exists f. split; [exact Hf|]. eapply holds_trans; eassumption.
      * apply I2, Hq'.
    + intros Hes Ha f Hf. apply I3; [| |exact Hf].
      * intros q' Hq'. apply Hes. right. exact Hq'.
      * intros a Ha'. rewrite He in Ha'. injection Ha' as <-.
        apply Hord; [apply Hes; left; reflexivity | exact Ha].
    + intros _ Hno. exfalso. apply (Hno q). left. reflexivity.
  - cbn [fold_left accumulate].
    destruct (IH acc) as (I1 & I2 & I3 & I4).
    repeat split.
    + exact I1.
    + intros q [Hq|Hq]; [discriminate | apply I2, Hq].
    + intros Hes Ha. apply I3; [|exact Ha].
      intros q Hq. apply Hes. right. exact Hq.
    + intros Ha Hno. apply I4; [exact Ha|].
      intros q Hq. apply (Hno q). right. exact Hq.
Qed.

Lemma prepared_visible (layers : list Layer.t) (l : Layer.t) :
  In l layers -> Layer.visible l = true ->
  In (Some (prepare l)) (preparedLayers layers).
Proof.
  intros Hl Hv. unfold preparedLayers. apply in_map_iff.
  exists l. split; [|exact Hl]. rewrite Hv. reflexivity.
Qed.

Lemma prepared_inv (layers : list Layer.t) (q : Prepared) :
  In (Some q) (preparedLayers layers) ->
  exists l, In l layers /\ Layer.visible l = true /\ q = prepare l.
Proof.
  unfold preparedLayers. intros H. apply in_map_iff in H as (l & Hq & Hl).
  exists l. destruct (Layer.visible l); cbn [negb] in Hq; [|discriminate].
  injection Hq as <-. repeat split; assumption.
Qed.

Lemma prepare_ordered (l : Layer.t) : ordered (drawn_extent (prepare l)).
Proof.
  unfold drawn_extent, prepare, ordered, CircularSystem.generatePathData.
  cbn [preparedBounds layer CircularSystem.bounds CircularSystem.minX
       CircularSystem.maxX CircularSystem.minY CircularSystem.maxY].
  destruct (GeneratorSpec.run_around_origin (Layer.text l) (Layer.segmentLength l))
    as [[H1 H2] [H3 H4]].
  lra.
Qed.

(** X11.  The content bounds hold every visible layer where it is drawn:
    each point of the path of a visible layer, moved by the position of
    the layer, lies between their minima and maxima. *)
Theorem contentBounds_hold_visible_layers
    (layers : list Layer.t) (l : Layer.t) (p : Point.t) :
  In l layers -> Layer.visible l = true ->
  In p (CircularSystem.points
          (CircularSystem.generatePathData (Layer.text l) (Layer.segmentLength l))) ->
  let cb := contentBounds (preparedLayers layers) in
  CircularSystem.minX cb <= Point.x p + Layer.x l <= CircularSystem.maxX cb /\
  CircularSystem.minY cb <= Point.y p + Layer.y l <= CircularSystem.maxY cb.
Proof.
  intros Hl Hv Hp. cbv zeta.
  destruct (fold_accumulate (preparedLayers layers) None) as (_ & H & _ & _).
  destruct (H (prepare l) (prepared_visible layers l Hl Hv)) as (e & He & Hh).
  unfold contentBounds. rewrite He.
  destruct e as [[[x0 x1] y0] y1].
  cbn [CircularSystem.minX CircularSystem.maxX CircularSystem.minY CircularSystem.maxY].
  unfold holds, drawn_extent, prepare in Hh. cbn [preparedBounds layer] in Hh.
  destruct (GeneratorFacts.points_inside_bounds_of _ _ _ Hp) as [[P1 P2] [P3 P4]].
  lra.
Qed.

Lemma contentBounds_hold_visible_layers_witness :
  let l := Layer.mk "1" "Base Layer" (JS.of_string "A") "#1e293b" 5 7 false true 10 in
  let cb := contentBounds (preparedLayers [l]) in
  CircularSystem.minX cb <= 0 + 5 <= CircularSystem.maxX cb /\
  CircularSystem.minY cb <= 0 + 7 <= CircularSystem.maxY cb.
Proof.
  cbv zeta.
  apply (contentBounds_hold_visible_layers
           [Layer.mk "1" "Base Layer" (JS.of_string "A") "#1e293b" 5 7 false true 10]
           (Layer.mk "1" "Base Layer" (JS.of_string "A") "#1e293b" 5 7 false true 10)
           (Point.mk 0 0 [] 0 false)).
  - left. reflexivity.
  - reflexivity.
  - cbn [Layer.text Layer.segmentLength].
    unfold CircularSystem.generatePathData. cbn [CircularSystem.points].
    rewrite GeneratorSpec.run_A. left. reflexivity.
Defined.

(** The content bounds are the default box when no layer is visible, and
    otherwise a box that is not inverted. *)
Lemma contentBounds_width (layers : list Layer.t) :
  let cb := contentBounds (preparedLayers layers) in
  0 <= CircularSystem.width cb /\ 0 <= CircularSystem.height cb /\
  CircularSystem.width cb = CircularSystem.maxX cb - CircularSystem.minX cb /\
  CircularSystem.height cb = CircularSystem.maxY cb - CircularSystem.minY cb.
Proof.
  cbv zeta. unfold contentBounds.
  destruct (fold_accumulate (preparedLayers layers) None) as (_ & _ & H & _).
  destruct (fold_left accumulate (preparedLayers layers) None)
    as [[[[x0 x1] y0] y1]|] eqn:E.
  - assert (Ho : ordered (x0, x1, y0, y1)).
    { apply H; [| intros a Ha; discriminate | reflexivity].
      intros q Hq. destruct (prepared_inv layers q Hq) as (l & _ & _ & ->).
      apply prepare_ordered. }
    cbn in Ho. cbn. lra.
  - cbn. lra.
Qed.

(** ** Auto-fit *)

Lemma autoFit_viewBox (cb : CircularSystem.Bounds) (s : CanvasState) :
  isAutoFit s = true ->
  0 <= CircularSystem.width cb -> 0 <= CircularSystem.height cb ->
  let px := Rmax 100 (CircularSystem.width cb * (15 / 100)) in
  let py := Rmax 100 (CircularSystem.height cb * (15 / 100)) in
  100 <= px /\ 100 <= py /\
  viewBox (autoFitEffect cb s) =
  mkViewBox (CircularSystem.minX cb - px) (CircularSystem.minY cb - py)
            (CircularSystem.width cb + px * 2) (CircularSystem.height cb + py * 2).
Proof.
  intros Ha Hw Hh. cbv zeta.
  pose proof (Rmax_l 100 (CircularSystem.width cb * (15 / 100))) as Px.
  pose proof (Rmax_l 100 (CircularSystem.height cb * (15 / 100))) as Py.
  split; [exact Px|]. split; [exact Py|].
  unfold autoFitEffect. rewrite Ha. cbn [negb setViewBox viewBox].
  set (px := Rmax 100 (CircularSystem.width cb * (15 / 100))) in *.
  set (py := Rmax 100 (CircularSystem.height cb * (15 / 100))) in *.
  rewrite !Rmax_left by lra. reflexivity.
Qed.

(** X12.  With auto-fit on, the view rectangle is the content bounds widened
    on each side by max(100, 15 percent of the extent) along that axis: it
    is centered on the content bounds and at least 200 wide and high, so
    that the floor of 100 on its size never applies; with no visible layer
    it is (-150, -150, 300, 300). *)
Theorem autoFit_frames_the_content (layers : list Layer.t) (s : CanvasState) :
  isAutoFit s = true ->
  let cb := contentBounds (preparedLayers layers) in
  let v := viewBox (framed layers s) in
  vx v = CircularSystem.minX cb - Rmax 100 (CircularSystem.width cb * (15 / 100)) /\
  vy v = CircularSystem.minY cb - Rmax 100 (CircularSystem.height cb * (15 / 100)) /\
  vw v = CircularSystem.width cb + 2 * Rmax 100 (CircularSystem.width cb * (15 / 100)) /\
  vh v = CircularSystem.height cb + 2 * Rmax 100 (CircularSystem.height cb * (15 / 100)) /\
  200 <= vw v /\ 200 <= vh v /\
  vx v + vw v / 2 = (CircularSystem.minX cb + CircularSystem.maxX cb) / 2 /\
  vy v + vh v / 2 = (CircularSystem.minY cb + CircularSystem.maxY cb) / 2 /\
  ((forall l, In l layers -> Layer.visible l = false) ->
   v = mkViewBox (-150) (-150) 300 300).
Proof.
  intros Ha. cbv zeta.
  destruct (contentBounds_width layers) as (Hw & Hh & Ew & Eh).
  destruct (autoFit_viewBox (contentBounds (preparedLayers layers)) s Ha Hw Hh)
    as (Px & Py & Hv).
  unfold framed. rewrite Hv. cbn [vx vy vw vh].
  repeat split; try lra.
  intros Hnone.
  assert (E : fold_left accumulate (preparedLayers layers) None = None).
  { apply (fold_accumulate (preparedLayers layers) None); [reflexivity|].
    intros q Hq. destruct (prepared_inv layers q Hq) as (l & Hl & Hvis & _).
    rewrite (Hnone l Hl) in Hvis. discriminate. }
  unfold contentBounds. rewrite E.
  cbn [CircularSystem.minX CircularSystem.minY CircularSystem.width
       CircularSystem.height].
  rewrite Rmax_left by lra. f_equal; lra.
Qed.

Lemma autoFit_frames_the_content_witness :
  viewBox (framed [] canvas_initial) = mkViewBox (-150) (-150) 300 300.
Proof.
  destruct (autoFit_frames_the_content [] canvas_initial eq_refl)
    as (_ & _ & _ & _ & _ & _ & _ & _ & H).
  apply H. intros l [].
Defined.

(** X13.  With auto-fit on, everything visible is in view with room to
    spare: each point of the path of a visible layer, moved by the position
    of the layer, lies in the view rectangle at least 100 units from each
    of its four edges. *)
Theorem autoFit_shows_every_point
    (layers : list Layer.t) (s : CanvasState) (l : Layer.t) (p : Point.t) :
  isAutoFit s = true ->
  In l layers -> Layer.visible l = true ->
  In p (CircularSystem.points
          (CircularSystem.generatePathData (Layer.text l) (Layer.segmentLength l))) ->
  let v := viewBox (framed layers s) in
  vx v + 100 <= Point.x p + Layer.x l <= vx v + vw v - 100 /\
  vy v + 100 <= Point.y p + Layer.y l <= vy v + vh v - 100.
Proof.
  intros Ha Hl Hvis Hp. cbv zeta.
  destruct (contentBounds_width layers) as (Hw & Hh & Ew & Eh).
  destruct (autoFit_viewBox (contentBounds (preparedLayers layers)) s Ha Hw Hh)
    as (Px & Py & Hv).
  unfold framed. rewrite Hv. cbn [vx vy vw vh].
  destruct (fold_accumulate (preparedLayers layers) None) as (_ & H & _ & _).
  destruct (H (prepare l) (prepared_visible layers l Hl Hvis)) as (e & He & Hh').
  revert Px Py Ew Eh. unfold contentBounds. rewrite He.
  destruct e as [[[x0 x1] y0] y1].
  cbn [CircularSystem.minX CircularSystem.maxX CircularSystem.minY
       CircularSystem.maxY CircularSystem.width CircularSystem.height].
  unfold holds, drawn_extent, prepare in Hh'. cbn [preparedBounds layer] in Hh'.
  destruct (GeneratorFacts.points_inside_bounds_of _ _ _ Hp) as [[P1 P2] [P3 P4]].
  intros Px Py _ _. lra.
Qed.

Lemma autoFit_shows_every_point_witness :
  let l := Layer.mk "1" "Base Layer" (JS.of_string "A") "#1e293b" 5 7 false true 10 in
  let v := viewBox (framed [l] canvas_initial) in
  vx v + 100 <= 0 + 5 <= vx v + vw v - 100 /\
  vy v + 100 <= 0 + 7 <= vy v + vh v - 100.
Proof.
  cbv zeta.
  apply (autoFit_shows_every_point
           [Layer.mk "1" "Base Layer" (JS.of_string "A") "#1e293b" 5 7 false true 10]
           canvas_initial
           (Layer.mk "1" "Base Layer" (JS.of_string "A") "#1e293b" 5 7 false true 10)
           (Point.mk 0 0 [] 0 false)).
  - reflexivity.
  - left. reflexivity.
  - reflexivity.
  - cbn [Layer.text Layer.segmentLength].
    unfold CircularSystem.generatePathData. cbn [CircularSystem.points].
    rewrite GeneratorSpec.run_A. left. reflexivity.
Defined.

(** X14.  A manual change of the camera sticks: after a wheel step, a zoom
    button or the start of a pan, auto-fit is off and the auto-fit effect
    leaves the view rectangle alone, whatever the content; after a click
    on "Auto-Fit View" the effect frames the content again. *)
Theorem manual_camera_overrides_autoFit
    (cb : CircularSystem.Bounds) (s : CanvasState) (d : R) (e : MouseEvent) :
  pan_initiating e = true ->
  autoFitEffect cb (handleWheel d s) = handleWheel d s /\
  autoFitEffect cb (zoomInClick s) = zoomInClick s /\
  autoFitEffect cb (zoomOutClick s) = zoomOutClick s /\
  autoFitEffect cb (handleMouseDown e s) = handleMouseDown e s /\
  viewBox (handleMouseDown e s) = viewBox s /\
  viewBox (autoFitEffect cb (autoFitClick (handleWheel d s))) =
  viewBox (autoFitEffect cb (autoFitClick s)).
Proof.
  intros He. repeat split.
  - unfold handleMouseDown. fold (pan_initiating e). rewrite He. reflexivity.
  - unfold handleMouseDown. fold (pan_initiating e). rewrite He. reflexivity.
Qed.

Lemma manual_camera_overrides_autoFit_witness :
  autoFitEffect (contentBounds (preparedLayers [])) (handleWheel 1 canvas_initial) =
  handleWheel 1 canvas_initial.
Proof.
  apply (manual_camera_overrides_autoFit (contentBounds (preparedLayers []))
           canvas_initial 1 (mkMouseEvent 1 false 0 0)).
  reflexivity.
Defined.

(** ** Hidden layers *)

Lemma fold_visible (layers : list Layer.t) :
  forall acc,
    fold_left accumulate (preparedLayers layers) acc =
    fold_left accumulate (preparedLayers (filter Layer.visible layers)) acc.
Proof.
  induction layers as [|l ls IH]; intros acc; [reflexivity|].
  cbn [preparedLayers map filter fold_left].
  destruct (Layer.visible l) eqn:E; cbn [negb map fold_left].
  - rewrite E. cbn [negb]. apply IH.
  - cbn [accumulate]. apply IH.
Qed.

(** X15.  Hidden layers do not count: the content bounds, and with them the
    auto-fit view rectangle, are those of the visible layers alone. *)
Theorem hidden_layers_do_not_count (layers : list Layer.t) (s : CanvasState) :
  contentBounds (preparedLayers layers) =
    contentBounds (preparedLayers (filter Layer.visible layers)) /\
  framed layers s = framed (filter Layer.visible layers) s.
Proof.
  assert (H : contentBounds (preparedLayers layers) =
              contentBounds (preparedLayers (filter Layer.visible layers))).
  { unfold contentBounds. rewrite fold_visible. reflexivity. }
  split; [exact H|]. unfold framed. rewrite H. reflexivity.
Qed.

(** ** One zoom step *)

(** X16.  Every zoom step, by the wheel in either direction or by a button,
    keeps the center of the view rectangle and its aspect ratio, and never
    collapses or inverts it: a positive width and height stay positive. *)
Theorem zoom_keeps_center_and_aspect (s : CanvasState) (d : R) (w : ViewBox) :
  w = viewBox (handleWheel d s) \/ w = viewBox (zoomInClick s) \/
  w = viewBox (zoomOutClick s) ->
  let v := viewBox s in
  vx w + vw w / 2 = vx v + vw v / 2 /\
  vy w + vh w / 2 = vy v + vh v / 2 /\
  vw w * vh v = vh w * vw v /\
  (0 < vw v -> 0 < vw w) /\ (0 < vh v -> 0 < vh w).
Proof.
  intros [->|[->| ->]]; cbv zeta.
  - unfold handleWheel.
    cbn [setIsAutoFit setViewBox viewBox vx vy vw vh].
    destruct (Rlt_dec 0 d); repeat split; intros; nra.
  - cbn [zoomInClick setIsAutoFit setViewBox viewBox vx vy vw vh].
    repeat split; intros; nra.
  - cbn [zoomOutClick setIsAutoFit setViewBox viewBox vx vy vw vh].
    repeat split; intros; nra.
Qed.

Lemma zoom_keeps_center_and_aspect_witness :
  let w := viewBox (handleWheel 1 canvas_initial) in
  vx w + vw w / 2 = -50 + 100 / 2.
Proof.
  cbv zeta.
  apply (zoom_keeps_center_and_aspect canvas_initial 1
           (viewBox (handleWheel 1 canvas_initial))).
  left. reflexivity.
Defined.

End CanvasFacts.

(* ================================================================== *)
(** * Further properties of the layers and of the loop *)
(* ================================================================== *)

Module AppFacts.

Import JS Types CircularSystem App Spec.Loop LoopSpec.
Local Open Scope Z_scope.

(** ** Records and maps *)

Lemma setLayers_same (s : AppState) : setLayers (layers s) s = s.
Proof. destruct s. reflexivity. Qed.

Lemma map_unchanged {A : Type} (f : A -> A) (l : list A) :
  (forall a, In a l -> f a = a) -> map f l = l.
Proof.
  induction l as [|a l IH]; intros H; [reflexivity|]. cbn [map].
  rewrite (H a) by (left; reflexivity).
  rewrite IH; [reflexivity|]. intros b Hb. apply H. right. exact Hb.
Qed.

Lemma not_in_ids (id : string) (ls : list Layer.t) (l : Layer.t) :
  ~ In id (ids ls) -> In l ls -> String.eqb (Layer.id l) id = false.
Proof.
  intros Hid Hl. apply String.eqb_neq. intros <-.
  apply Hid. unfold ids. apply in_map, Hl.
Qed.

Lemma findLayer_some (id : string) (ls : list Layer.t) (l : Layer.t) :
  findLayer id ls = Some l -> In l ls /\ Layer.id l = id.
Proof.
  unfold findLayer. intros H. apply find_some in H as [H1 H2].
  split; [exact H1 | apply String.eqb_eq, H2].
Qed.

Lemma findLayer_none (id : string) (ls : list Layer.t) :
  findLayer id ls = None <-> ~ In id (ids ls).
Proof.
  unfold findLayer, ids. split.
  - intros H Hin. apply in_map_iff in Hin as (l & Hl & Hin).
    pose proof (find_none _ _ H l Hin) as Hf. cbv beta in Hf.
    rewrite Hl, String.eqb_refl in Hf. discriminate.
  - intros H. destruct (find _ ls) as [l|] eqn:E; [|reflexivity].
    apply find_some in E as [E1 E2]. apply String.eqb_eq in E2.
    exfalso. apply H. rewrite <- E2. apply in_map, E1.
Qed.

(** ** Moving a layer *)

Lemma shifted_shifted (l : Layer.t) (dx dy dx' dy' : R) :
  shifted (shifted l dx dy) dx' dy' = shifted l (dx + dx') (dy + dy').
Proof. unfold shifted. cbn. f_equal; ring. Qed.

Lemma shifted_zero (l : Layer.t) (dx dy : R) :
  dx = 0%R -> dy = 0%R -> shifted l dx dy = l.
Proof. intros -> ->. destruct l. unfold shifted. cbn. f_equal; ring. Qed.

Lemma handleLayerMove_layers (id : string) (dx dy : R) (s : AppState) :
  layers (handleLayerMove id dx dy s) =
  map (fun l => if String.eqb (Layer.id l) id then shifted l dx dy else l)
      (layers s).
Proof.
  unfold handleLayerMove. cbn [setLayers layers]. apply map_ext.
  intros l. destruct (String.eqb (Layer.id l) id); reflexivity.
Qed.

Lemma handleLayerMove_as_map (id : string) (dx dy : R) (s : AppState) :
  handleLayerMove id dx dy s =
  setLayers (map (fun l => if String.eqb (Layer.id l) id then shifted l dx dy else l)
                 (layers s)) s.
Proof.
  rewrite <- handleLayerMove_layers. unfold handleLayerMove. reflexivity.
Qed.

Lemma handleLayerMove_twice (id : string) (dx dy dx' dy' : R) (s : AppState) :
  handleLayerMove id dx' dy' (handleLayerMove id dx dy s) =
  handleLayerMove id (dx + dx') (dy + dy') s.
Proof.
  rewrite !handleLayerMove_as_map. unfold setLayers.
  cbn [layers activeLayerId isLooping loopIntervalRef loopSeedRef loopIndexRef
       window].
  f_equal. rewrite map_map. apply map_ext. intros l.
  destruct (String.eqb (Layer.id l) id) eqn:E.
  - replace (Layer.id (shifted l dx dy)) with (Layer.id l) by reflexivity.
    rewrite E. apply shifted_shifted.
  - rewrite E. reflexivity.
Qed.


Lemma handleLayerMove_zero (id : string) (dx dy : R) (s : AppState) :
  dx = 0%R -> dy = 0%R -> handleLayerMove id dx dy s = s.
Proof.
  intros Hx Hy. rewrite handleLayerMove_as_map.
  rewrite map_unchanged; [apply setLayers_same|].
  intros l _. destruct (String.eqb (Layer.id l) id); [|reflexivity].
  apply shifted_zero; assumption.
Qed.

(** X17.  Layer moves add up and undo: a move by (dx, dy) followed by one by
    (dx', dy') is the move by their sum, the opposite move restores the
    state, and a move of an id that no layer has changes nothing; the
    layers with another id are never touched. *)
Theorem handleLayerMove_composes
    (id : string) (dx dy dx' dy' : R) (s : AppState) :
  handleLayerMove id dx' dy' (handleLayerMove id dx dy s) =
    handleLayerMove id (dx + dx') (dy + dy') s /\
  handleLayerMove id (- dx) (- dy) (handleLayerMove id dx dy s) = s /\
  (~ In id (ids (layers s)) -> handleLayerMove id dx dy s = s) /\
  (forall other, other <> id ->
     findLayer other (layers (handleLayerMove id dx dy s)) =
     findLayer other (layers s)) /\
  (forall l, findLayer id (layers s) = Some l ->
     findLayer id (layers (handleLayerMove id dx dy s)) = Some (shifted l dx dy)).
Proof.
  split; [apply handleLayerMove_twice|].
  split; [rewrite handleLayerMove_twice; apply handleLayerMove_zero; ring|].
  split.
  { intros Hid. rewrite handleLayerMove_as_map.
    rewrite map_unchanged; [apply setLayers_same|].
    intros l Hl. rewrite (not_in_ids id (layers s) l Hid Hl). reflexivity. }
  split.
  - intros other Ho. rewrite handleLayerMove_layers. unfold findLayer.
    induction (layers s) as [|l ls IH]; [reflexivity|]. cbn [map find].
    destruct (String.eqb (Layer.id l) id) eqn:E.
    + replace (Layer.id (shifted l dx dy)) with (Layer.id l) by reflexivity.
      apply String.eqb_eq in E. rewrite E.
      replace (String.eqb id other) with false
        by (symmetry; apply String.eqb_neq; congruence).
      exact IH.
    + destruct (String.eqb (Layer.id l) other); [reflexivity | exact IH].
  - intros l. rewrite handleLayerMove_layers. unfold findLayer.
    induction (layers s) as [|l0 ls IH]; [discriminate|]. cbn [map find].
    destruct (String.eqb (Layer.id l0) id) eqn:E.
    + replace (Layer.id (shifted l0 dx dy)) with (Layer.id l0) by reflexivity.
      rewrite E. intros H. injection H as <-. reflexivity.
    + rewrite E. exact IH.
Qed.

(** ** Updating a layer *)

Lemma handleUpdateLayer_local_facts (id : string) (u : Partial.t) (s : AppState) :
  Partial.id u = None ->
  (forall other, other <> id ->
     findLayer other (layers (handleUpdateLayer id u s)) =
     findLayer other (layers s)) /\
  (forall l, findLayer id (layers s) = Some l ->
     findLayer id (layers (handleUpdateLayer id u s)) = Some (spread l u)).
Proof.
  intros Hu. unfold handleUpdateLayer. cbn [setLayers layers].
  assert (Hsame : forall l, Layer.id (spread l u) = Layer.id l).
  { intros l. unfold spread. cbn [Layer.id]. rewrite Hu. reflexivity. }
  split.
  - intros other Ho. unfold findLayer.
    induction (layers s) as [|l ls IH]; [reflexivity|]. cbn [map find].
    destruct (String.eqb (Layer.id l) id) eqn:E.
    + rewrite Hsame. apply String.eqb_eq in E. rewrite E.
      replace (String.eqb id other) with false
        by (symmetry; apply String.eqb_neq; congruence).
      exact IH.
    + destruct (String.eqb (Layer.id l) other); [reflexivity | exact IH].
  - intros l. unfold findLayer.
    induction (layers s) as [|l0 ls IH]; [discriminate|]. cbn [map find].
    destruct (String.eqb (Layer.id l0) id) eqn:E.
    + rewrite Hsame, E. intros H. injection H as <-. reflexivity.
    + rewrite E. exact IH.
Qed.

End AppFacts.

(* ================================================================== *)
(** * Properties of the canvas in its host *)
(* ================================================================== *)

Module HostFacts.

Import Types CurveCanvas App Spec.Camera Spec.Loop AppFacts.
Local Open Scope R_scope.


Lemma idle_move (c : CanvasState) (e : MouseEvent) (svg : option Svg) :
  idle c -> handleGlobalMouseMove e svg c = (c, None).
Proof.
  intros [Hp Hd]. unfold handleGlobalMouseMove. rewrite Hp, Hd. reflexivity.
Qed.


Lemma mouseMoves_cons (e : MouseEvent) (es : list MouseEvent)
    (svg : option Svg) (h : Host) :
  mouseMoves (e :: es) svg h = mouseMoves es svg (mouseMove e svg h).
Proof. reflexivity. Qed.






(** X19.  A pointer-down that starts nothing leaves everything in place: on
    an idle canvas, a pointer-down over a layer that is locked, or with a
    button other than the primary one, and that does not start a pan,
    changes no state, and the pointer-moves that follow move neither the
    layers nor the camera. *)
Theorem locked_layer_stays
    (c : CanvasState) (a0 : AppState) (down : MouseEvent) (id : string)
    (locked : bool) (es : list MouseEvent) (svg : option Svg) :
  idle c -> pan_initiating down = false ->
  locked = true \/ button down <> 0%Z ->
  layerMouseDown down id locked c = c /\
  mouseMoves es svg (mkHost (layerMouseDown down id locked c) a0) = mkHost c a0.
Proof.
  intros Hi Hp Hl.
  assert (Hc : layerMouseDown down id locked c = c).
  { assert (Hm : handleMouseDown down c = c).
    { unfold handleMouseDown. fold (pan_initiating down). rewrite Hp. reflexivity. }
    unfold layerMouseDown. destruct locked; [exact Hm|].
    destruct Hl as [Hl|Hl]; [discriminate|].
    replace (button down =? 0)%Z with false
      by (symmetry; apply Z.eqb_neq, Hl).
    exact Hm. }
  split; [exact Hc|]. rewrite Hc.
  induction es as [|e es IH]; [reflexivity|].
  rewrite mouseMoves_cons. unfold mouseMove. cbn [canvas app].
  rewrite (idle_move c e svg Hi). exact IH.
Qed.

Lemma locked_layer_stays_witness :
  mouseMoves [mkMouseEvent 0 false 110 104] None
    (mkHost (layerMouseDown (mkMouseEvent 0 false 100 100) "1" true canvas_initial)
            app_initial) =
  mkHost canvas_initial app_initial.
Proof.
  apply (locked_layer_stays canvas_initial app_initial
           (mkMouseEvent 0 false 100 100) "1" true
           [mkMouseEvent 0 false 110 104] None).
  - split; reflexivity.
  - reflexivity.
  - left. reflexivity.
Defined.

(** X20.  Panning never moves a layer: while a pan is in progress, no run of
    pointer-moves changes the layers, not even when a drag is recorded as
    well, the pan taking precedence; the pan, the recorded drag and the
    auto-fit flag stay as they are. *)
Theorem pan_never_moves_layers
    (c : CanvasState) (a0 : AppState) (p : PanState.t)
    (es : list MouseEvent) (svg : option Svg) :
  panState c = Some p ->
  let h := mouseMoves es svg (mkHost c a0) in
  app h = a0 /\ panState (canvas h) = Some p /\
  dragState (canvas h) = dragState c /\ isAutoFit (canvas h) = isAutoFit c.
Proof.
  intros Hp. cbv zeta. revert c Hp.
  induction es as [|e es IH]; intros c Hp.
  - repeat split; [exact Hp].
  - rewrite mouseMoves_cons. unfold mouseMove. cbn [canvas app].
    unfold handleGlobalMouseMove. rewrite Hp.
    destruct svg as [g|].
    + match goal with
      | |- context [mouseMoves es _ (mkHost ?c' a0)] =>
          destruct (IH c' Hp) as (H1 & H2 & H3 & H4)
      end.
      repeat split; assumption.
    + destruct (IH c Hp) as (H1 & H2 & H3 & H4). repeat split; assumption.
Qed.

Lemma pan_never_moves_layers_witness :
  let c := handleMouseDown (mkMouseEvent 1 false 200 150) canvas_initial in
  app (mouseMoves [mkMouseEvent 1 false 230 110] (Some (mkSvg 800 600 None))
         (mkHost c app_initial)) = app_initial.
Proof.
  cbv zeta.
  apply (pan_never_moves_layers
           (handleMouseDown (mkMouseEvent 1 false 200 150) canvas_initial)
           app_initial
           (PanState.mk 200 150 (viewBox canvas_initial))
           [mkMouseEvent 1 false 230 110] (Some (mkSvg 800 600 None))).
  reflexivity.
Defined.

End HostFacts.

(* ================================================================== *)
(** * Properties of the layer list *)
(* ================================================================== *)

Module LayerFacts.

Import JS Types CircularSystem App Spec.Loop LoopSpec AppFacts.
Local Open Scope Z_scope.

(** ** Deleting *)

Lemma filter_keeps_all (id : string) (ls : list Layer.t) :
  ~ In id (ids ls) -> filter (keeps id) ls = ls.
Proof.
  induction ls as [|l ls IH]; intros H; [reflexivity|]. cbn [filter].
  unfold keeps at 1. rewrite (not_in_ids id (l :: ls) l H) by (left; reflexivity).
  cbn [negb]. rewrite IH; [reflexivity|].
  intros Hin. apply H. right. exact Hin.
Qed.

Lemma filter_keeps_length (id : string) (ls : list Layer.t) :
  NoDup (ids ls) ->
  (List.length ls <= S (List.length (filter (keeps id) ls)))%nat.
Proof.
  induction ls as [|l ls IH]; intros H; [cbn; lia|].
  cbn [ids map] in H. apply NoDup_cons_iff in H as [Hl Hls].
  cbn [filter]. unfold keeps at 1.
  destruct (String.eqb (Layer.id l) id) eqn:E; cbn [negb].
  - apply String.eqb_eq in E. subst id.
    rewrite (filter_keeps_all (Layer.id l) ls Hl). cbn [List.length]. lia.
  - cbn [List.length]. specialize (IH Hls). lia.
Qed.

Lemma filter_keeps_nodup (id : string) (ls : list Layer.t) :
  NoDup (ids ls) -> NoDup (ids (filter (keeps id) ls)).
Proof.
  induction ls as [|l ls IH]; intros H; [exact H|].
  cbn [ids map] in H. apply NoDup_cons_iff in H as [Hl Hls].
  cbn [filter]. destruct (keeps id l); [|apply IH, Hls].
  cbn [ids map]. apply NoDup_cons; [|apply IH, Hls].
  intros Hin. apply Hl. unfold ids in *.
  apply in_map_iff in Hin as (l' & Hl' & Hin). apply filter_In in Hin as [Hin _].
  rewrite <- Hl'. apply in_map, Hin.
Qed.

Lemma find_filter_keeps (id other : string) (ls : list Layer.t) :
  other <> id ->
  findLayer other (filter (keeps id) ls) = findLayer other ls.
Proof.
  intros Ho. unfold findLayer.
  induction ls as [|l ls IH]; [reflexivity|]. cbn [filter find].
  unfold keeps at 1. destruct (String.eqb (Layer.id l) id) eqn:E; cbn [negb].
  - apply String.eqb_eq in E.
    replace (String.eqb (Layer.id l) other) with false
      by (symmetry; apply String.eqb_neq; congruence).
    exact IH.
  - cbn [find]. destruct (String.eqb (Layer.id l) other); [reflexivity | exact IH].
Qed.

(** X21.  Deleting keeps a layer and a valid selection.  With layers of
    distinct ids, [handleDeleteLayer] never throws and never empties the
    list: on a single layer it does nothing; otherwise it removes the layer
    of the given id and no other, and if that layer was the active one the
    first remaining layer becomes active, so that an active id that named a
    layer still names one. *)
Theorem handleDeleteLayer_keeps_a_layer (id : string) (s : AppState) :
  layers s <> [] -> NoDup (ids (layers s)) ->
  exists s',
    handleDeleteLayer id s = Returned s' /\
    layers s' <> [] /\ NoDup (ids (layers s')) /\
    (List.length (layers s) = 1%nat -> s' = s) /\
    ((2 <= List.length (layers s))%nat ->
     ~ In id (ids (layers s')) /\
     forall l, In l (layers s') <-> In l (layers s) /\ Layer.id l <> id) /\
    (findLayer (activeLayerId s) (layers s) <> None ->
     findLayer (activeLayerId s') (layers s') <> None).
Proof.
  intros Hne Hnd. unfold handleDeleteLayer.
  destruct (Nat.eqb (List.length (layers s)) 1) eqn:E1.
  - apply Nat.eqb_eq in E1. exists s.
    split; [reflexivity|]. split; [exact Hne|]. split; [exact Hnd|].
    split; [reflexivity|]. split; [intros H; lia|]. intros H; exact H.
  - apply Nat.eqb_neq in E1. fold (keeps id).
    assert (Hlen : (2 <= List.length (layers s))%nat).
    { destruct (layers s) as [|l [|l' ls]]; [congruence | cbn in E1; lia | cbn; lia]. }
    pose proof (filter_keeps_length id (layers s) Hnd) as Hk.
    assert (Hnew : filter (keeps id) (layers s) <> []).
    { intros H. rewrite H in Hk. cbn in Hk. lia. }
    assert (Hin : forall l, In l (filter (keeps id) (layers s)) <->
                            In l (layers s) /\ Layer.id l <> id).
    { intros l. rewrite filter_In. unfold keeps.
      rewrite negb_true_iff, String.eqb_neq. reflexivity. }
    assert (Hgone : ~ In id (ids (filter (keeps id) (layers s)))).
    { unfold ids. intros H. apply in_map_iff in H as (l & Hl & H).
      apply Hin in H as [_ H]. congruence. }
    destruct (String.eqb (activeLayerId s) id) eqn:Ea.
    + destruct (filter (keeps id) (layers s)) as [|first rest] eqn:Ef; [congruence|].
      eexists. split; [reflexivity|].
      cbn [setActiveLayerId setLayers layers activeLayerId].
      split; [discriminate|].
      split; [rewrite <- Ef; apply filter_keeps_nodup, Hnd|].
      split; [intros H; lia|].
      split; [intros _; split; assumption|].
      intros _. unfold findLayer. cbn [find]. rewrite String.eqb_refl. discriminate.
    + eexists. split; [reflexivity|]. cbn [setLayers layers activeLayerId].
      split; [exact Hnew|].
      split; [apply filter_keeps_nodup, Hnd|].
      split; [intros H; lia|].
      split; [intros _; split; assumption|].
      apply String.eqb_neq in Ea. rewrite find_filter_keeps by exact Ea. auto.
Qed.

Lemma handleDeleteLayer_keeps_a_layer_witness :
  exists s', handleDeleteLayer "1" app_initial = Returned s' /\ layers s' <> [].
Proof.
  destruct (handleDeleteLayer_keeps_a_layer "1" app_initial) as (s' & H1 & H2 & _).
  - discriminate.
  - cbn. constructor; [intros [] | constructor].
  - exists s'. split; assumption.
Defined.

(** ** Adding *)

Lemma findLayer_app (id : string) (ls ls' : list Layer.t) :
  findLayer id (ls ++ ls') =
  match findLayer id ls with
  | Some l => Some l
  | None => findLayer id ls'
  end.
Proof.
  unfold findLayer. induction ls as [|l ls IH]; [reflexivity|].
  cbn [List.app find]. destruct (String.eqb (Layer.id l) id); [reflexivity | exact IH].
Qed.

(** X22.  A layer added under an id not yet in use goes to the end of the
    list and becomes the active layer; it is empty, at the origin, unlocked
    and visible, its color is one of the palette whatever the number of
    layers, the layers already there are found as before, distinct ids stay
    distinct, and, its text being empty, a click on "Play Loop" does
    nothing. *)
Theorem handleAddLayer_adds_an_empty_layer (newId : string) (s : AppState) :
  ~ In newId (ids (layers s)) ->
  let s' := handleAddLayer newId s in
  exists l,
    layers s' = layers s ++ [l] /\ activeLayer s' = Some l /\
    Layer.id l = newId /\ Layer.text l = [] /\
    Layer.x l = 0%R /\ Layer.y l = 0%R /\
    Layer.locked l = false /\ Layer.visible l = true /\
    Layer.segmentLength l = DEFAULT_SEGMENT_LENGTH /\
    Layer.name l = ("Layer " ++ decimal (List.length (layers s) + 1))%string /\
    In (Layer.color l) COLORS /\
    (forall id l', findLayer id (layers s) = Some l' ->
                   findLayer id (layers s') = Some l') /\
    (NoDup (ids (layers s)) -> NoDup (ids (layers s'))) /\
    playLoopClick s' = s'.
Proof.
  intros Hid. cbv zeta. unfold handleAddLayer.
  set (l := Layer.mk newId _ _ _ _ _ _ _ _).
  cbn [setActiveLayerId setLayers layers].
  assert (Hact : activeLayer
                   (setActiveLayerId newId (setLayers (layers s ++ [l]) s)) = Some l).
  { unfold activeLayer. cbn [setActiveLayerId setLayers layers activeLayerId].
    rewrite findLayer_app.
    replace (findLayer newId (layers s)) with (@None Layer.t)
      by (symmetry; apply findLayer_none, Hid).
    unfold findLayer. cbn [find]. subst l. cbn [Layer.id].
    rewrite String.eqb_refl. reflexivity. }
  exists l. split; [reflexivity|]. split; [exact Hact|].
  do 8 (split; [reflexivity|]).
  split.
  { subst l. cbn [Layer.color]. apply nth_In.
    apply Nat.mod_upper_bound. discriminate. }
  split.
  { intros id l' H. rewrite findLayer_app, H. reflexivity. }
  split.
  { intros Hnd. unfold ids. rewrite map_app. cbn [map].
    apply NoDup_app; [exact Hnd | constructor; [intros [] | constructor] |].
    intros x Hx [<-|[]]. apply Hid. exact Hx. }
  unfold playLoopClick. rewrite Hact.
  destruct (isLooping _); reflexivity.
Qed.

Lemma handleAddLayer_adds_an_empty_layer_witness :
  exists l, layers (handleAddLayer "2" app_initial) = layers app_initial ++ [l] /\
            activeLayer (handleAddLayer "2" app_initial) = Some l.
Proof.
  destruct (handleAddLayer_adds_an_empty_layer "2" app_initial) as (l & H1 & H2 & _).
  - cbn. intros [H|[]]. discriminate.
  - exists l. split; assumption.
Defined.

(** ** Updating *)

Lemma spread_empty (l : Layer.t) : spread l Partial.empty = l.
Proof. destruct l. reflexivity. Qed.

(** X23.  An update is local: [handleUpdateLayer] keeps the number of layers
    and leaves every layer with another id as it is; with an id that no
    layer has, or with no field given, the state is unchanged; an update
    that does not give an id keeps the ids. *)
Theorem handleUpdateLayer_is_local (id : string) (u : Partial.t) (s : AppState) :
  List.length (layers (handleUpdateLayer id u s)) = List.length (layers s) /\
  (forall other, other <> id -> Partial.id u = None ->
     findLayer other (layers (handleUpdateLayer id u s)) =
     findLayer other (layers s)) /\
  (forall l, findLayer id (layers s) = Some l -> Partial.id u = None ->
     findLayer id (layers (handleUpdateLayer id u s)) = Some (spread l u)) /\
  (~ In id (ids (layers s)) -> handleUpdateLayer id u s = s) /\
  handleUpdateLayer id Partial.empty s = s /\
  (Partial.id u = None ->
   ids (layers (handleUpdateLayer id u s)) = ids (layers s)).
Proof.
  unfold handleUpdateLayer. cbn [setLayers layers].
  split; [apply length_map|].
  assert (Hsame : forall l, Partial.id u = None -> Layer.id (spread l u) = Layer.id l).
  { intros l Hu. unfold spread. cbn [Layer.id]. rewrite Hu. reflexivity. }
  split.
  { intros other Ho Hu. unfold findLayer.
    induction (layers s) as [|l ls IH]; [reflexivity|]. cbn [map find].
    destruct (String.eqb (Layer.id l) id) eqn:E.
    - rewrite (Hsame l Hu). apply String.eqb_eq in E. rewrite E.
      replace (String.eqb id other) with false
        by (symmetry; apply String.eqb_neq; congruence).
      exact IH.
    - destruct (String.eqb (Layer.id l) other); [reflexivity | exact IH]. }
  split.
  { intros l Hl Hu. revert Hl. unfold findLayer.
    induction (layers s) as [|l0 ls IH]; [discriminate|]. cbn [map find].
    destruct (String.eqb (Layer.id l0) id) eqn:E.
    - rewrite (Hsame l0 Hu), E. intros H. injection H as <-. reflexivity.
    - rewrite E. exact IH. }
  split.
  { intros Hid. rewrite map_unchanged; [apply setLayers_same|].
    intros l Hl. rewrite (not_in_ids id (layers s) l Hid Hl). reflexivity. }
  split.
  { rewrite map_unchanged; [apply setLayers_same|].
    intros l _. destruct (String.eqb (Layer.id l) id); [apply spread_empty | reflexivity]. }
  intros Hu. unfold ids. rewrite map_map. apply map_ext.
  intros l. destruct (String.eqb (Layer.id l) id); [apply Hsame, Hu | reflexivity].
Qed.

(** ** Centering *)

Lemma box_is_centered (text : jsstring) (len : R) :
  let b := bounds (generatePathData text len) in
  (minX b + - (minX b + width b / 2) = - (maxX b + - (minX b + width b / 2)) /\
   minY b + - (minY b + height b / 2) = - (maxY b + - (minY b + height b / 2)))%R.
Proof.
  cbv zeta. unfold generatePathData.
  cbn [bounds minX maxX minY maxY width height]. split; lra.
Qed.

(** The update that [handleCenterLayer] requests for the layer [l]. *)
Lemma handleCenterLayer_found (id : string) (s : AppState) (l : Layer.t) :
  findLayer id (layers s) = Some l ->
  handleCenterLayer id s =
  handleUpdateLayer id
    (Partial.mk None None None None
       (Some (- centerX (Layer.text l) (Layer.segmentLength l))%R)
       (Some (- centerY (Layer.text l) (Layer.segmentLength l))%R)
       None None None) s.
Proof. intros H. unfold handleCenterLayer. rewrite H. reflexivity. Qed.

(** X24.  Centering a layer puts the bounding box of its path, drawn at the
    new position, symmetric about the origin, and changes nothing but the
    position; centering again changes nothing more, and the layers with
    another id stay as they are. *)
Theorem handleCenterLayer_centers (id : string) (s : AppState) (l : Layer.t) :
  findLayer id (layers s) = Some l ->
  let s' := handleCenterLayer id s in
  exists l',
    findLayer id (layers s') = Some l' /\
    l' = moved l (Layer.text l)
           (- centerX (Layer.text l) (Layer.segmentLength l))
           (- centerY (Layer.text l) (Layer.segmentLength l)) /\
    centered l' /\
    handleCenterLayer id s' = s' /\
    (forall other, other <> id ->
       findLayer other (layers s') = findLayer other (layers s)).
Proof.
  intros Hl. cbv zeta. rewrite (handleCenterLayer_found id s l Hl).
  set (u := Partial.mk _ _ _ _ _ _ _ _ _).
  destruct (handleUpdateLayer_local_facts id u s eq_refl) as (Hother & Hfound).
  eexists. split; [apply Hfound, Hl|]. split; [reflexivity|].
  split.
  { unfold centered, spread. subst u.
    cbn [Partial.x Partial.y Partial.text Partial.segmentLength orElse
         Layer.text Layer.segmentLength Layer.x Layer.y].
    apply box_is_centered. }
  split.
  { rewrite (handleCenterLayer_found id _ (spread l u) (Hfound l Hl)).
    replace (Layer.text (spread l u)) with (Layer.text l) by reflexivity.
    replace (Layer.segmentLength (spread l u)) with (Layer.segmentLength l)
      by reflexivity.
    fold u. unfold handleUpdateLayer. unfold setLayers.
    cbn [layers activeLayerId isLooping loopIntervalRef loopSeedRef
         loopIndexRef window].
    f_equal. rewrite map_map. apply map_ext. intros l0.
    destruct (String.eqb (Layer.id l0) id) eqn:E.
    - replace (Layer.id (spread l0 u)) with (Layer.id l0) by reflexivity.
      rewrite E. reflexivity.
    - rewrite E. reflexivity. }
  exact Hother.
Qed.

Lemma handleCenterLayer_centers_witness :
  exists l', findLayer "1" (layers (handleCenterLayer "1" app_initial)) = Some l' /\
             centered l'.
Proof.
  destruct (handleCenterLayer_centers "1" app_initial
              (Layer.mk "1" "Base Layer" (of_string "Hello World") "#1e293b"
                 0 0 false true DEFAULT_SEGMENT_LENGTH))
    as (l' & H1 & _ & H2 & _).
  - reflexivity.
  - exists l'. split; assumption.
Defined.

End LayerFacts.

(* ================================================================== *)
(** * Further properties of the loop *)
(* ================================================================== *)

Module LoopFacts.

Import JS Types CircularSystem App Spec.Loop LoopSpec AppFacts.
Local Open Scope Z_scope.

(** ** One tick *)

(** What a tick that appends keeps and changes. *)
Lemma tick_step (s : AppState) (cur : Layer.t) :
  loopSeedRef s <> [] -> 0 <= loopIndexRef s ->
  findLayer (activeLayerId s) (layers s) = Some cur ->
  exists u cur',
    nth_error (loopSeedRef s)
      (Z.to_nat (loopIndexRef s mod length (loopSeedRef s))) = Some u /\
    findLayer (activeLayerId s) (layers (tick s)) = Some cur' /\
    Layer.text cur' = Layer.text cur ++ [u] /\
    Layer.segmentLength cur' = Layer.segmentLength cur /\
    (closed (loopSeedRef s) (Layer.text cur ++ [u]) (Layer.segmentLength cur) ->
     cur' = moved cur (Layer.text cur ++ [u])
              (- centerX (Layer.text cur ++ [u]) (Layer.segmentLength cur))
              (- centerY (Layer.text cur ++ [u]) (Layer.segmentLength cur))) /\
    loopSeedRef (tick s) = loopSeedRef s /\
    loopIndexRef (tick s) = loopIndexRef s + 1 /\
    activeLayerId (tick s) = activeLayerId s /\
    (isLooping s = false -> isLooping (tick s) = false) /\
    (8000 < length (Layer.text cur ++ [u]) -> isLooping (tick s) = false).
Proof.
  intros Hseed Hidx Hcur.
  destruct (index_in_range (loopSeedRef s) (loopIndexRef s) Hseed Hidx)
    as (u & Hu & Hn).
  rewrite (tick_appends s cur u Hseed Hu Hcur).
  set (newText := Layer.text cur ++ [u]).
  set (len := Layer.segmentLength cur).
  set (s1 := setLoopIndexRef (loopIndexRef s + 1) s).
  pose proof (closed_test (loopSeedRef s) newText len) as Hc.
  destruct (stopLoop_stopped s1) as (Hflag & _ & _).
  destruct (stopLoop_cursor s1) as (Hi1 & Hs1 & Ha1).
  destruct ((Z.max (length (loopSeedRef s) * 4) 40 <? length newText) &&
            Rltb (dist (endPoint (generatePathData newText len))) (1 / 2)) eqn:E.
  - exists u, (moved cur newText (- centerX newText len) (- centerY newText len)).
    cbn [setLayers layers loopSeedRef loopIndexRef activeLayerId isLooping].
    split; [exact Hn|]. split; [apply find_withTextAt, Hcur|].
    split; [reflexivity|]. split; [reflexivity|]. split; [reflexivity|].
    split; [exact Hs1|]. split; [exact Hi1|]. split; [exact Ha1|].
    split; intros _; exact Hflag.
  - exists u, (grown cur newText).
    assert (NC : ~ closed (loopSeedRef s) newText len).
    { intros C. apply Hc in C. congruence. }
    split; [exact Hn|]. split; [apply find_withText, Hcur|].
    split; [reflexivity|]. split; [reflexivity|].
    split; [intros C; contradiction|].
    destruct (8000 <? length newText) eqn:E8;
      cbn [setLayers layers loopSeedRef loopIndexRef activeLayerId isLooping].
    + split; [exact Hs1|]. split; [exact Hi1|]. split; [exact Ha1|].
      split; intros _; exact Hflag.
    + split; [reflexivity|]. split; [reflexivity|]. split; [reflexivity|].
      split; [intros H; exact H|].
      intros H. apply Z.ltb_ge in E8. unfold newText in E8. exfalso. lia.
Qed.

Lemma moved_centered (cur : Layer.t) (newText : jsstring) :
  centered (moved cur newText
              (- centerX newText (Layer.segmentLength cur))
              (- centerY newText (Layer.segmentLength cur))).
Proof.
  unfold centered, moved, centerX, centerY, generatePathData.
  cbn [Layer.text Layer.segmentLength Layer.x Layer.y bounds minX maxX minY maxY
       width height].
  split; lra.
Qed.

(** X25.  When the loop closes, the layer ends up centered: after the tick
    that finds the text longer than max(4 x seed length, 40) with its end
    point less than 0.5 from the origin, the active layer holds the new
    text and the bounding box of its path, drawn at the layer's new
    position, is symmetric about the origin. *)
Theorem closure_centers_the_layer (s : AppState) (cur : Layer.t) (u : Z) :
  loopSeedRef s <> [] -> 0 <= loopIndexRef s ->
  findLayer (activeLayerId s) (layers s) = Some cur ->
  nth_error (loopSeedRef s)
    (Z.to_nat (loopIndexRef s mod length (loopSeedRef s))) = Some u ->
  closed (loopSeedRef s) (Layer.text cur ++ [u]) (Layer.segmentLength cur) ->
  exists cur',
    findLayer (activeLayerId s) (layers (tick s)) = Some cur' /\
    Layer.text cur' = Layer.text cur ++ [u] /\
    centered cur' /\ isLooping (tick s) = false.
Proof.
  intros Hseed Hidx Hcur Hu Hclosed.
  destruct (tick_step s cur Hseed Hidx Hcur)
    as (u' & cur' & Hu' & Hf & Ht & _ & Hm & _ & _ & _ & _ & _).
  assert (u' = u) by congruence. subst u'.
  exists cur'. split; [exact Hf|]. split; [exact Ht|].
  rewrite (Hm Hclosed). split; [apply moved_centered|].
  destruct (index_in_range (loopSeedRef s) (loopIndexRef s) Hseed Hidx)
    as (v & Hv & Hn).
  assert (v = u) by congruence. subst v.
  rewrite (tick_appends s cur u Hseed Hv Hcur).
  apply closed_test in Hclosed. rewrite Hclosed.
  cbn [setLayers isLooping]. apply stopLoop_stopped.
Qed.

Lemma closure_centers_the_layer_witness :
  isLooping closing = true /\ isLooping (tick closing) = false /\
  exists cur',
    findLayer "1" (layers (tick closing)) = Some cur' /\
    Layer.text cur' = repeat 78 42 /\ centered cur' /\ Layer.x cur' = 5%R.
Proof.
  destruct (closure_centers_the_layer closing closing_layer 78)
    as (cur' & H1 & H2 & H3 & H4).
  - cbn. discriminate.
  - cbn. lia.
  - reflexivity.
  - reflexivity.
  - exact closing_closed.
  - split; [reflexivity|]. split; [exact H4|].
    exists cur'. split; [exact H1|]. split; [exact H2|]. split; [exact H3|].
    assert (Hl : Layer.segmentLength cur' = 10%R).
    { destruct (tick_step closing closing_layer)
        as (u & c & _ & Hf & _ & Hs & _); [cbn; discriminate | cbn; lia | reflexivity |].
      rewrite H1 in Hf. injection Hf as <-. exact Hs. }
    unfold centered in H3. cbv zeta in H3. rewrite H2, Hl in H3.
    change (Layer.text closing_layer ++ [78]) with (repeat 78 (2 * 21)) in H3.
    destruct (path_of_NN 10 20) as (_ & Hx0 & Hx1 & _); [lra|].
    destruct H3 as [Hx _]. rewrite Hx0, Hx1 in Hx. lra.
Defined.

(** ** Many ticks *)

Lemma length_snoc (text : jsstring) (u : Z) :
  length (text ++ [u]) = length text + 1.
Proof. unfold length. rewrite length_app. cbn [List.length]. lia. Qed.

Lemma cycle_S (seed : jsstring) (i : Z) (n : nat) (u : Z) :
  nth_error seed (Z.to_nat (i mod length seed)) = Some u ->
  cycle seed i (S n) = u :: cycle seed (i + 1) n.
Proof.
  intros Hu. unfold cycle. rewrite <- cons_seq, <- seq_shift.
  cbn [map]. rewrite map_map. f_equal.
  - replace (i + Z.of_nat 0) with i by lia.
    apply nth_error_nth, Hu.
  - apply map_ext. intros k.
    replace (i + Z.of_nat (S k)) with (i + 1 + Z.of_nat k) by lia. reflexivity.
Qed.

Lemma cycle_length (seed : jsstring) (i : Z) (n : nat) :
  length (cycle seed i n) = Z.of_nat n.
Proof. unfold cycle, length. rewrite length_map, length_seq. reflexivity. Qed.

(** X26.  The loop grows the text with the seed read cyclically: after [n]
    firings of the callback, from a cursor that is not negative, the active
    layer's text is its text at the start followed by the [n] characters
    seed[cursor mod len], seed[(cursor + 1) mod len], ...; the cursor has
    advanced by [n], and the seed and the selection are unchanged. *)
Theorem ticks_append_the_seed_cyclically (n : nat) :
  forall (s : AppState) (cur : Layer.t),
    loopSeedRef s <> [] -> 0 <= loopIndexRef s ->
    findLayer (activeLayerId s) (layers s) = Some cur ->
    exists cur',
      findLayer (activeLayerId s) (layers (ticks n s)) = Some cur' /\
      Layer.text cur' =
        Layer.text cur ++ cycle (loopSeedRef s) (loopIndexRef s) n /\
      length (Layer.text cur') = length (Layer.text cur) + Z.of_nat n /\
      Layer.segmentLength cur' = Layer.segmentLength cur /\
      loopIndexRef (ticks n s) = loopIndexRef s + Z.of_nat n /\
      loopSeedRef (ticks n s) = loopSeedRef s /\
      activeLayerId (ticks n s) = activeLayerId s.
Proof.
  induction n as [|n IH]; intros s cur Hseed Hidx Hcur.
  - exists cur. cbn [ticks cycle seq map]. rewrite app_nil_r.
    repeat split; try assumption; lia.
  - destruct (tick_step s cur Hseed Hidx Hcur)
      as (u & cur1 & Hu & Hf & Ht & Hl & _ & Hs & Hi & Ha & _ & _).
    destruct (IH (tick s) cur1) as (cur' & F & T & Len & SL & I & S' & A).
    + rewrite Hs. exact Hseed.
    + rewrite Hi. lia.
    + rewrite Ha. exact Hf.
    + exists cur'. cbn [ticks]. rewrite Ha in F.
      split; [exact F|].
      split.
      { rewrite T, Ht, Hs, Hi, (cycle_S _ _ n u Hu), <- app_assoc. reflexivity. }
      split; [rewrite Len, Ht, length_snoc; lia|].
      split; [congruence|].
      split; [rewrite I, Hi; lia|].
      split; congruence.
Qed.

Lemma ticks_append_the_seed_cyclically_witness :
  let s := loopEffect (startLoop app_initial) in
  exists cur',
    findLayer "1" (layers (ticks 3 s)) = Some cur' /\
    Layer.text cur' = of_string "Hello WorldHel".
Proof.
  cbv zeta.
  destruct (ticks_append_the_seed_cyclically 3 (loopEffect (startLoop app_initial))
              (Layer.mk "1" "Base Layer" (of_string "Hello World") "#1e293b"
                 0 0 false true DEFAULT_SEGMENT_LENGTH))
    as (cur' & H1 & H2 & _).
  - cbn. discriminate.
  - cbn. lia.
  - reflexivity.
  - exists cur'. split; [exact H1 | exact H2].
Defined.

Lemma tick_never_starts (s : AppState) :
  isLooping s = false -> isLooping (tick s) = false.
Proof.
  intros H. unfold tick.
  destruct (loopSeedRef s) as [|c0 seed]; [exact H|].
  set (charToAdd := match index _ _ with Some c => c | None => undefined_text end).
  cbn [setLoopIndexRef activeLayerId layers].
  destruct (findLayer (activeLayerId s) (layers s)) as [cur|]; [|exact H].
  destruct (_ && _).
  - cbn [setLayers isLooping]. apply stopLoop_stopped.
  - destruct (8000 <? _); cbn [setLayers isLooping];
      [apply stopLoop_stopped | exact H].
Qed.

(** X27.  The loop ends: whatever the geometry, once the callback has fired
    often enough for the text to pass 8000 units the looping flag is down,
    and further firings never raise it again. *)
Theorem loop_stops_by_the_ceiling (n : nat) :
  forall (s : AppState) (cur : Layer.t),
    loopSeedRef s <> [] -> 0 <= loopIndexRef s ->
    findLayer (activeLayerId s) (layers s) = Some cur ->
    (1 <= n)%nat -> 8000 < length (Layer.text cur) + Z.of_nat n ->
    isLooping (ticks n s) = false /\
    forall m, isLooping (ticks m (ticks n s)) = false.
Proof.
  assert (Hstay : forall m t, isLooping t = false -> isLooping (ticks m t) = false).
  { induction m as [|m IH]; intros t Ht; [exact Ht|].
    cbn [ticks]. apply IH, tick_never_starts, Ht. }
  assert (Hmain : forall n s cur,
             loopSeedRef s <> [] -> 0 <= loopIndexRef s ->
             findLayer (activeLayerId s) (layers s) = Some cur ->
             8000 < length (Layer.text cur) + Z.of_nat (S n) ->
             isLooping (ticks (S n) s) = false).
  { clear n. induction n as [|n IH]; intros s cur Hseed Hidx Hcur Hlen;
      destruct (tick_step s cur Hseed Hidx Hcur)
        as (u & cur1 & Hu & Hf & Ht & Hl & _ & Hs & Hi & Ha & _ & H8).
    - cbn [ticks]. apply H8. rewrite length_snoc. lia.
    - change (ticks (S (S n)) s) with (ticks (S n) (tick s)).
      apply (IH (tick s) cur1).
      + rewrite Hs. exact Hseed.
      + rewrite Hi. lia.
      + rewrite Ha. exact Hf.
      + rewrite Ht, length_snoc. lia. }
  intros s cur Hseed Hidx Hcur Hn Hlen.
  destruct n as [|n]; [lia|].
  pose proof (Hmain n s cur Hseed Hidx Hcur Hlen) as H.
  split; [exact H|]. intros m. apply Hstay, H.
Qed.

Lemma loop_stops_by_the_ceiling_witness :
  let long := repeat 65 (Z.to_nat 8000) in
  let s := setLoopSeedRef [65]
             (setLayers [Layer.mk "1" "Base Layer" long "#1e293b"
                           0 0 false true 10] (setIsLooping true app_initial)) in
  isLooping (ticks 1 s) = false.
Proof.
  cbv zeta.
  apply (loop_stops_by_the_ceiling 1
           (setLoopSeedRef [65]
              (setLayers [Layer.mk "1" "Base Layer" (repeat 65 (Z.to_nat 8000))
                            "#1e293b" 0 0 false true 10]
                 (setIsLooping true app_initial)))
           (Layer.mk "1" "Base Layer" (repeat 65 (Z.to_nat 8000)) "#1e293b"
              0 0 false true 10)).
  - cbn [loopSeedRef setLoopSeedRef]. discriminate.
  - cbn [loopIndexRef setLoopSeedRef setLayers setIsLooping app_initial]. lia.
  - reflexivity.
  - lia.
  - cbn [Layer.text]. unfold length. rewrite repeat_length. lia.
Defined.

(** ** Timers *)

Lemma clear_fresh_handle (w : Window) :
  fresh w ->
  filter (fun k => negb (k =? nextHandle w)) (nextHandle w :: scheduled w) =
  scheduled w.
Proof.
  intros [_ Hw]. cbn [filter]. rewrite Z.eqb_refl. cbn [negb].
  induction Hw as [|k ks Hk _ IH]; [reflexivity|]. cbn [filter].
  replace (k =? nextHandle w) with false by (symmetry; apply Z.eqb_neq; lia).
  cbn [negb]. rewrite IH. reflexivity.
Qed.

Lemma stopLoop_twice (s : AppState) : stopLoop (stopLoop s) = stopLoop s.
Proof.
  unfold stopLoop. cbn [setIsLooping loopIntervalRef window].
  destruct (liveHandle (loopIntervalRef s)) as [h|] eqn:E.
  - cbn [setLoopIntervalRef setWindow setIsLooping loopIntervalRef liveHandle].
    reflexivity.
  - cbn [setIsLooping loopIntervalRef]. rewrite E. reflexivity.
Qed.

(** X28.  The loop leaves no timer behind.  Started while none of its timers
    runs, the loop schedules exactly one interval and keeps its handle;
    [stopLoop], like the cleanup of the effect, unschedules it, so that the
    timers of the window are those from before the start; and stopping
    twice is stopping once. *)
Theorem start_then_stop_leaves_no_timer (s : AppState) (a : Layer.t) :
  activeLayer s = Some a -> isLooping s = false ->
  liveHandle (loopIntervalRef s) = None -> fresh (window s) ->
  let s1 := loopEffect (startLoop s) in
  scheduled (window s1) = nextHandle (window s) :: scheduled (window s) /\
  loopIntervalRef s1 = Some (nextHandle (window s)) /\
  scheduled (window (stopLoop s1)) = scheduled (window s) /\
  scheduled (window (loopCleanup s1)) = scheduled (window s) /\
  isLooping (stopLoop s1) = false /\
  loopIntervalRef (stopLoop s1) = None /\
  layers (stopLoop s1) = layers s /\
  fresh (window (stopLoop s1)) /\
  forall t, stopLoop (stopLoop t) = stopLoop t.
Proof.
  intros Ha Hl Hr Hw. cbv zeta.
  assert (Hs : loopEffect (startLoop s) =
               setLoopIntervalRef (Some (nextHandle (window s)))
                 (setWindow (snd (setInterval (window s)))
                    (setIsLooping true
                       (setLoopIndexRef 0 (setLoopSeedRef (Layer.text a) s))))).
  { unfold startLoop. rewrite Ha, Hl. unfold loopEffect.
    cbn [isLooping setIsLooping].
    replace (activeLayer (setIsLooping true
               (setLoopIndexRef 0 (setLoopSeedRef (Layer.text a) s))))
      with (activeLayer s) by reflexivity.
    rewrite Ha. reflexivity. }
  rewrite Hs.
  assert (Hlive : liveHandle (Some (nextHandle (window s))) =
                  Some (nextHandle (window s))).
  { cbn [liveHandle]. destruct Hw as [Hpos _].
    replace (nextHandle (window s) =? 0) with false
      by (symmetry; apply Z.eqb_neq; lia).
    reflexivity. }
  set (s1 := setLoopIntervalRef _ _).
  set (w1 := mkWindow (scheduled (window s)) (nextHandle (window s) + 1)).
  assert (Hclear : clearInterval (nextHandle (window s)) (window s1) = w1).
  { unfold clearInterval, w1, s1.
    cbn [setLoopIntervalRef setWindow window setInterval snd scheduled nextHandle].
    rewrite (clear_fresh_handle (window s) Hw). reflexivity. }
  assert (Hstop : stopLoop s1 =
                  setLoopIntervalRef None (setWindow w1 (setIsLooping false s1))).
  { unfold stopLoop. cbn [setIsLooping loopIntervalRef window].
    replace (loopIntervalRef s1) with (Some (nextHandle (window s))) by reflexivity.
    rewrite Hlive. replace (window (setIsLooping false s1)) with (window s1)
      by reflexivity.
    rewrite Hclear. reflexivity. }
  assert (Hclean : loopCleanup s1 = setWindow w1 s1).
  { unfold loopCleanup.
    replace (loopIntervalRef s1) with (Some (nextHandle (window s))) by reflexivity.
    rewrite Hlive, Hclear. reflexivity. }
  split; [reflexivity|]. split; [reflexivity|].
  rewrite Hstop, Hclean.
  split; [reflexivity|]. split; [reflexivity|]. split; [reflexivity|].
  split; [reflexivity|]. split; [reflexivity|].
  split.
  - cbn [setLoopIntervalRef setWindow window]. unfold w1, fresh.
    cbn [nextHandle scheduled]. destruct Hw as [Hpos Hall]. split; [lia|].
    eapply Forall_impl; [|exact Hall]. cbv beta. intros k Hk. lia.
  - apply stopLoop_twice.
Qed.

Lemma start_then_stop_leaves_no_timer_witness :
  scheduled (window (stopLoop (loopEffect (startLoop app_initial)))) =
  scheduled (window app_initial).
Proof.
  apply (start_then_stop_leaves_no_timer app_initial
           (Layer.mk "1" "Base Layer" (of_string "Hello World") "#1e293b"
              0 0 false true DEFAULT_SEGMENT_LENGTH)).
  - reflexivity.
  - reflexivity.
  - reflexivity.
  - split; [cbn; lia | constructor].
Defined.

End LoopFacts.
